(** * car_truck.py: a parking lot shared by cars (1 spot) and trucks (2 adjacent spots)

    Shallow embedding of [src/car_truck.py] and the properties of its
    allocation engine.

    Modelling choices, all read off the source:
    - Python [int] is [Z]; [Optional[int]] is [option Z]; the list
      [spots] is a [list bool] read and written by index, with Python's
      [IndexError] outside the list (and Python's wrap-around for negative
      indices) written out in [getitem] and [setitem];
    - a method that can raise returns a [result]; a method of a vehicle runs
      in the state monad [M] over a [Frame]: the vehicle [self], the lot it
      references and the lines printed so far;
    - every public method body is one [with self.parking_lot.lock:] block, so
      a method call is one atomic transition of the [World]; all vehicles of a
      world reference the same lot, held once in the world;
    - [print(...)] appends one line to [stdout]; integers are formatted as
      Python's [str] does, which is stdpp's [pretty] on [Z]. *)

From stdpp Require Import base list sets strings pretty.

Open Scope Z_scope.

(** ** Exceptions and results *)

Inductive exn : Set :=
| IndexError   (* list index out of range *)
| NameError.   (* the driver names a vehicle that was never created *)

Inductive result (A : Type) : Type :=
| Ok (a : A)
| Raise (e : exn).
Arguments Ok {A} a.
Arguments Raise {A} e.

Global Instance result_ret : MRet result := λ A a, Ok a.
Global Instance result_bind : MBind result := λ A B k m,
  match m with
  | Ok a => k a
  | Raise e => Raise e
  end.

(** ** Python lists indexed by an integer *)

(** [l[i]] accepts [-len(l) <= i < len(l)]; a negative index counts from the
    end. *)
Definition norm_index {A} (l : list A) (i : Z) : option nat :=
  let n := Z.of_nat (length l) in
  let j := if bool_decide (i < 0) then i + n else i in
  if bool_decide (0 ≤ j < n) then Some (Z.to_nat j) else None.

Definition getitem {A} (l : list A) (i : Z) : result A :=
  match norm_index l i with
  | Some k => from_option Ok (Raise IndexError) (l !! k)
  | None => Raise IndexError
  end.

Definition setitem {A} (l : list A) (i : Z) (x : A) : result (list A) :=
  match norm_index l i with
  | Some k => Ok (<[k:=x]> l)
  | None => Raise IndexError
  end.

(** [range(n)] *)
Definition range (n : Z) : list Z := seqZ 0 n.

(** [False] is 0 and [True] is 1 under [sum]. *)
Definition int_of_bool (b : bool) : Z := if b then 1 else 0.

Definition sum (l : list bool) : Z := foldr (λ b acc, int_of_bool b + acc) 0 l.

(** ** class VehicleType, class ParkingLot *)

Inductive VehicleType : Set := CAR | TRUCK.

Global Instance VehicleType_eq_dec : EqDecision VehicleType.
Proof. solve_decision. Defined.

Record ParkingLot : Set := {
  capacity : Z;
  spots : list bool   (* False = free, True = occupied *)
}.

(** [ParkingLot.__init__]: [[False] * capacity] is empty when [capacity <= 0]. *)
Definition ParkingLot_init (capacity : Z) : ParkingLot :=
  {| capacity := capacity; spots := replicate (Z.to_nat capacity) false |}.

Module Avail.
(** The dict returned by [get_availability], one field per key. *)
Record t : Set := {
  total : Z;
  occupied : Z;
  free : Z;
  spots : list string
}.
End Avail.

Definition get_availability (self : ParkingLot) : Avail.t :=
  {| Avail.total := capacity self;
     Avail.occupied := sum (spots self);
     Avail.free := capacity self - sum (spots self);
     Avail.spots := (λ spot : bool, if spot then "X" else "O") <$> spots self |}.

(** The body of [for i in range(self.capacity)] in [_find_single_spot]. *)
Fixpoint _find_single_spot_loop (self : ParkingLot) (indices : list Z)
  : result (option Z) :=
  match indices with
  | [] => mret None
  | i :: rest =>
      occ ← getitem (spots self) i;
      if negb occ then mret (Some i) else _find_single_spot_loop self rest
  end.

Definition _find_single_spot (self : ParkingLot) : result (option Z) :=
  _find_single_spot_loop self (range (capacity self)).

(** The body of [for i in range(self.capacity - 1)] in [_find_adjacent_spots];
    [and] does not evaluate [spots[i + 1]] when [spots[i]] is occupied. *)
Fixpoint _find_adjacent_spots_loop (self : ParkingLot) (indices : list Z)
  : result (option Z) :=
  match indices with
  | [] => mret None
  | i :: rest =>
      occ ← getitem (spots self) i;
      if negb occ then
        occ' ← getitem (spots self) (i + 1);
        if negb occ' then mret (Some i)
        else _find_adjacent_spots_loop self rest
      else _find_adjacent_spots_loop self rest
  end.

Definition _find_adjacent_spots (self : ParkingLot) : result (option Z) :=
  _find_adjacent_spots_loop self (range (capacity self - 1)).

(** ** class Vehicle and the frame of a method call *)

(** The fields of a vehicle object; its [parking_lot] field is a reference,
    held in the [Frame] (inside a call) and in the [World] (between calls). *)
Record Vehicle : Set := {
  vehicle_type : VehicleType;
  spot_index : option Z
}.

(** [Vehicle.__init__] as called by [Car.__init__] and [Truck.__init__]. *)
Definition Vehicle_init (vehicle_type : VehicleType) : Vehicle :=
  {| vehicle_type := vehicle_type; spot_index := None |}.

Record Frame : Set := {
  self : Vehicle;
  parking_lot : ParkingLot;
  stdout : list string
}.

Definition M (A : Type) : Type := Frame → result (A * Frame).

Global Instance M_ret : MRet M := λ A a f, Ok (a, f).
Global Instance M_bind : MBind M := λ A B k m f,
  match m f with
  | Ok (a, f') => k a f'
  | Raise e => Raise e
  end.

(** A read-only method of the lot, called on [self.parking_lot]. *)
Definition on_lot {A} (m : ParkingLot → result A) : M A := λ f,
  match m (parking_lot f) with
  | Ok a => Ok (a, f)
  | Raise e => Raise e
  end.

Definition get_spot_index : M (option Z) := λ f, Ok (spot_index (self f), f).

Definition get_capacity : M Z := λ f, Ok (capacity (parking_lot f), f).

(** [self.spot_index = v] *)
Definition set_spot_index (v : option Z) : M unit := λ f,
  Ok ((), {| self := {| vehicle_type := vehicle_type (self f); spot_index := v |};
             parking_lot := parking_lot f;
             stdout := stdout f |}).

(** [self.parking_lot.spots[idx] = b] *)
Definition set_spot (idx : Z) (b : bool) : M unit := λ f,
  match setitem (spots (parking_lot f)) idx b with
  | Ok l => Ok ((), {| self := self f;
                       parking_lot := {| capacity := capacity (parking_lot f);
                                         spots := l |};
                       stdout := stdout f |})
  | Raise e => Raise e
  end.

Definition print (line : string) : M unit := λ f,
  Ok ((), {| self := self f;
             parking_lot := parking_lot f;
             stdout := stdout f ++ [line] |}).

(** The lines the methods print, as their f-strings build them. *)
Definition str (n : Z) : string := pretty n.

Module Car.

Definition msg_already_parked (s : Z) : string :=
  "Car already parked at spot " +:+ str s.
Definition msg_invalid_index (idx : Z) : string :=
  "Invalid spot index: " +:+ str idx.
Definition msg_not_parked : string := "Car is not parked".
Definition msg_parked_elsewhere (s idx : Z) : string :=
  "Car is parked at " +:+ str s +:+ ", not " +:+ str idx.

Definition request_spot : M (option Z) :=
  held ← get_spot_index;
  match held with
  | Some s =>
      (* Check if already parked *)
      print (msg_already_parked s);; mret None
  | None =>
      (* Find free spot *)
      found ← on_lot _find_single_spot;
      match found with
      | Some idx =>
          set_spot idx true;;
          set_spot_index (Some idx);;
          mret (Some idx)
      | None => mret None   (* No spot available *)
      end
  end.

Definition yield_spot (idx : Z) : M bool :=
  cap ← get_capacity;
  (* Validate the yield request *)
  if bool_decide (idx < 0) || bool_decide (idx >= cap) then
    print (msg_invalid_index idx);; mret false
  else
    held ← get_spot_index;
    match held with
    | None => print msg_not_parked;; mret false
    | Some s =>
        if bool_decide (s ≠ idx) then
          print (msg_parked_elsewhere s idx);; mret false
        else
          (* Release the spot *)
          set_spot idx false;;
          set_spot_index None;;
          mret true
    end.

End Car.

Module Truck.

Definition msg_already_parked (s : Z) : string :=
  "Truck already parked at spots " +:+ str s +:+ "-" +:+ str (s + 1).
Definition msg_invalid_index (idx : Z) : string :=
  "Invalid spot index: " +:+ str idx.
Definition msg_not_parked : string := "Truck is not parked".
Definition msg_parked_elsewhere (s idx : Z) : string :=
  "Truck is parked at " +:+ str s +:+ ", not " +:+ str idx.

Definition request_spot : M (option Z) :=
  held ← get_spot_index;
  match held with
  | Some s =>
      (* Check if already parked *)
      print (msg_already_parked s);; mret None
  | None =>
      (* Find adjacent spots *)
      found ← on_lot _find_adjacent_spots;
      match found with
      | Some idx =>
          set_spot idx true;;
          set_spot (idx + 1) true;;
          set_spot_index (Some idx);;
          mret (Some idx)
      | None => mret None   (* No adjacent spots available *)
      end
  end.

Definition yield_spot (idx : Z) : M bool :=
  cap ← get_capacity;
  (* Validate the yield request *)
  if bool_decide (idx < 0) || bool_decide (idx >= cap - 1) then
    print (msg_invalid_index idx);; mret false
  else
    held ← get_spot_index;
    match held with
    | None => print msg_not_parked;; mret false
    | Some s =>
        if bool_decide (s ≠ idx) then
          print (msg_parked_elsewhere s idx);; mret false
        else
          (* Release both spots *)
          set_spot idx false;;
          set_spot (idx + 1) false;;
          set_spot_index None;;
          mret true
    end.

End Truck.

(** Method dispatch: a [Car] is the vehicle whose [vehicle_type] is [CAR], a
    [Truck] the one whose [vehicle_type] is [TRUCK]. *)
Definition request_spot : M (option Z) := λ f,
  match vehicle_type (self f) with
  | CAR => Car.request_spot f
  | TRUCK => Truck.request_spot f
  end.

Definition yield_spot (idx : Z) : M bool := λ f,
  match vehicle_type (self f) with
  | CAR => Car.yield_spot idx f
  | TRUCK => Truck.yield_spot idx f
  end.


(** ** The world: one lot, the vehicles created on it, the console *)

Record World : Set := {
  lot : ParkingLot;
  vehicles : list Vehicle;   (* a vehicle is referred to by its position *)
  console : list string
}.

(** [lot = ParkingLot(capacity)], nothing created or printed yet. *)
Definition fresh (capacity : Z) : World :=
  {| lot := ParkingLot_init capacity; vehicles := []; console := [] |}.

(** [create_car] and [create_truck] return a new, unparked vehicle bound to
    the lot; the reference returned is the position of the new vehicle. *)
Definition create (t : VehicleType) (w : World) : nat * World :=
  (length (vehicles w),
   {| lot := lot w; vehicles := vehicles w ++ [Vehicle_init t]; console := console w |}).

Definition create_car : World → nat * World := create CAR.
Definition create_truck : World → nat * World := create TRUCK.

(** A method call on the vehicle [r]: the frame is built from the vehicle and
    the shared lot, and both are written back when the call returns. *)
Definition invoke {A} (r : nat) (m : M A) (w : World) : result (A * World) :=
  match vehicles w !! r with
  | None => Raise NameError
  | Some v =>
      match m {| self := v; parking_lot := lot w; stdout := console w |} with
      | Ok (a, f) =>
          Ok (a, {| lot := parking_lot f;
                    vehicles := <[r := self f]> (vehicles w);
                    console := stdout f |})
      | Raise e => Raise e
      end
  end.

(** The calls a driver can make, and what they return. *)
Inductive Call : Set :=
| create_car_call
| create_truck_call
| request_spot_call (r : nat)
| yield_spot_call (r : nat) (idx : Z).

Inductive Value : Set :=
| VRef (r : nat)
| VInt (i : option Z)
| VBool (b : bool).

Definition exec (c : Call) (w : World) : result (Value * World) :=
  match c with
  | create_car_call => let '(r, w') := create_car w in Ok (VRef r, w')
  | create_truck_call => let '(r, w') := create_truck w in Ok (VRef r, w')
  | request_spot_call r =>
      match invoke r request_spot w with
      | Ok (i, w') => Ok (VInt i, w')
      | Raise e => Raise e
      end
  | yield_spot_call r idx =>
      match invoke r (yield_spot idx) w with
      | Ok (b, w') => Ok (VBool b, w')
      | Raise e => Raise e
      end
  end.

(** A driver: the calls made one after the other (the lock serialises the
    critical sections of concurrent callers into such a sequence). *)
Fixpoint run (calls : list Call) (w : World) : result World :=
  match calls with
  | [] => Ok w
  | c :: rest =>
      match exec c w with
      | Ok (_, w') => run rest w'
      | Raise e => Raise e
      end
  end.

(** Every call names a vehicle created before it. *)
Fixpoint well_scoped (n : nat) (calls : list Call) : bool :=
  match calls with
  | [] => true
  | create_car_call :: rest | create_truck_call :: rest => well_scoped (S n) rest
  | request_spot_call r :: rest | yield_spot_call r _ :: rest =>
      bool_decide (r < n)%nat && well_scoped n rest
  end.

(** ** What a reservation holds *)

(** The spots of a reservation that starts at [i]. *)
Definition footprint (t : VehicleType) (i : Z) : list Z :=
  match t with
  | CAR => [i]
  | TRUCK => [i; i + 1]
  end.

Definition held_spots (v : Vehicle) : list Z :=
  match spot_index v with
  | Some i => footprint (vehicle_type v) i
  | None => []
  end.

Definition spots_needed (t : VehicleType) : Z :=
  match t with
  | CAR => 1
  | TRUCK => 2
  end.

Definition spots_held (v : Vehicle) : Z :=
  match spot_index v with
  | Some _ => spots_needed (vehicle_type v)
  | None => 0
  end.

Definition total_held (vs : list Vehicle) : Z :=
  foldr (λ v acc, spots_held v + acc) 0 vs.

Definition no_overlap (vs : list Vehicle) : Prop :=
  ∀ r1 r2 v1 v2, r1 ≠ r2 → vs !! r1 = Some v1 → vs !! r2 = Some v2 →
    held_spots v1 ## held_spots v2.

(** The lot is as [__init__] builds it and every method keeps it: one entry
    per spot. *)
Definition lot_wf (l : ParkingLot) : Prop :=
  length (spots l) = Z.to_nat (capacity l).

Global Instance lot_wf_dec l : Decision (lot_wf l).
Proof. unfold lot_wf. apply _. Defined.

(** The invariant of the allocation engine. *)
Record inv (w : World) : Prop := {
  inv_wf : lot_wf (lot w);
  inv_owned : ∀ r v j, vehicles w !! r = Some v → j ∈ held_spots v →
                0 ≤ j ∧ spots (lot w) !! Z.to_nat j = Some true;
  inv_no_overlap : no_overlap (vehicles w);
  inv_conservation : sum (spots (lot w)) = total_held (vehicles w)
}.

(** Frames after a [print], a commit and a release. *)
Definition printed (line : string) (f : Frame) : Frame :=
  {| self := self f; parking_lot := parking_lot f; stdout := stdout f ++ [line] |}.

Definition set_all (l : list bool) (js : list Z) (b : bool) : list bool :=
  foldl (λ acc j, <[Z.to_nat j := b]> acc) l js.

Definition moved (held : option Z) (l : list bool) (f : Frame) : Frame :=
  {| self := {| vehicle_type := vehicle_type (self f); spot_index := held |};
     parking_lot := {| capacity := capacity (parking_lot f); spots := l |};
     stdout := stdout f |}.

(** The failure lines, by vehicle kind. *)
Definition msg_already_parked (t : VehicleType) (s : Z) : string :=
  match t with
  | CAR => Car.msg_already_parked s
  | TRUCK => Truck.msg_already_parked s
  end.

Definition msg_invalid_index (t : VehicleType) (idx : Z) : string :=
  match t with
  | CAR => Car.msg_invalid_index idx
  | TRUCK => Truck.msg_invalid_index idx
  end.

Definition msg_not_parked (t : VehicleType) : string :=
  match t with
  | CAR => Car.msg_not_parked
  | TRUCK => Truck.msg_not_parked
  end.

Definition msg_parked_elsewhere (t : VehicleType) (s idx : Z) : string :=
  match t with
  | CAR => Car.msg_parked_elsewhere s idx
  | TRUCK => Truck.msg_parked_elsewhere s idx
  end.

(** The search a kind of vehicle uses and the first index its [yield_spot]
    rejects from above. *)
Definition find_for (t : VehicleType) : ParkingLot → result (option Z) :=
  match t with
  | CAR => _find_single_spot
  | TRUCK => _find_adjacent_spots
  end.

Definition index_bound (t : VehicleType) (l : ParkingLot) : Z :=
  match t with
  | CAR => capacity l
  | TRUCK => capacity l - 1
  end.

(** A world after one more line on the console. *)
Definition logged (line : string) (w : World) : World :=
  {| lot := lot w; vehicles := vehicles w; console := console w ++ [line] |}.

(** ** Scenarios *)

(** Capacity 5 with spots 0 and 2 taken. *)
Definition example_lot : ParkingLot :=
  {| capacity := 5; spots := [true; false; true; false; false] |}.

Definition car_at (held : option Z) : Vehicle :=
  {| vehicle_type := CAR; spot_index := held |}.

Definition truck_at (held : option Z) : Vehicle :=
  {| vehicle_type := TRUCK; spot_index := held |}.

(** Five cars fill a lot of capacity 5, the cars at 1 and 3 leave, a truck
    waits: cars are left at 0, 2 and 4. *)
Definition fragmentation_calls : list Call :=
  [ create_car_call; create_car_call; create_car_call; create_car_call;
    create_car_call; create_truck_call;
    request_spot_call 0; request_spot_call 1; request_spot_call 2;
    request_spot_call 3; request_spot_call 4;
    yield_spot_call 1 1; yield_spot_call 3 3 ].

Definition fragmented : World :=
  {| lot := {| capacity := 5; spots := [true; false; true; false; true] |};
     vehicles := [ car_at (Some 0); car_at None; car_at (Some 2); car_at None;
                   car_at (Some 4); truck_at None ];
     console := [] |}.

(** Three cars ask for a spot on a lot of capacity 2: the third finds none. *)
Definition full_calls : list Call :=
  [ create_car_call; create_car_call; create_car_call;
    request_spot_call 0; request_spot_call 1; request_spot_call 2 ].

Definition full : World :=
  {| lot := {| capacity := 2; spots := [true; true] |};
     vehicles := [ car_at (Some 0); car_at (Some 1); car_at None ];
     console := [] |}.

(** A car, a truck and a second car on a lot of capacity 5: the truck parks
    at 0-1, the cars at 2 and 3, the first car leaves, the truck asks again,
    the second car yields a spot that does not exist. *)
Definition mixed_calls : list Call :=
  [ create_car_call; create_truck_call; create_car_call;
    request_spot_call 1; request_spot_call 0; request_spot_call 2;
    yield_spot_call 0 2; request_spot_call 1; yield_spot_call 2 7 ].

Definition mixed : World :=
  {| lot := {| capacity := 5; spots := [true; true; false; true; false] |};
     vehicles := [ car_at None; truck_at (Some 0); car_at (Some 3) ];
     console := [ "Truck already parked at spots 0-1"; "Invalid spot index: 7" ] |}.

(** A truck and a car on a lot of capacity 1: the car parks, the truck asks. *)
Definition tiny_calls : list Call :=
  [ create_truck_call; create_car_call; request_spot_call 1; request_spot_call 0 ].

Definition tiny : World :=
  {| lot := {| capacity := 1; spots := [true] |};
     vehicles := [ truck_at None; car_at (Some 0) ];
     console := [] |}.

(** A car and a truck just created on a lot of capacity 5. *)
Definition new_car : Frame :=
  {| self := Vehicle_init CAR; parking_lot := ParkingLot_init 5; stdout := [] |}.

Definition new_truck : Frame :=
  {| self := Vehicle_init TRUCK; parking_lot := ParkingLot_init 5; stdout := [] |}.

(** A truck parked at 0-1 and a car parked at 0, each alone on a lot of
    capacity 5. *)
Definition parked_truck : Frame :=
  {| self := truck_at (Some 0);
     parking_lot := {| capacity := 5; spots := [true; true; false; false; false] |};
     stdout := [] |}.

Definition parked_car : Frame :=
  {| self := car_at (Some 0);
     parking_lot := {| capacity := 5; spots := [true; false; false; false; false] |};
     stdout := [] |}.

(** ** The rest of the module *)

(** [VehicleType.name] *)
Definition VehicleType_name (t : VehicleType) : string :=
  match t with
  | CAR => "CAR"
  | TRUCK => "TRUCK"
  end.

(** [Vehicle.__repr__] *)
Definition Vehicle_repr (self : Vehicle) : string :=
  let status :=
    match spot_index self with
    | Some i => "parked at " +:+ str i
    | None => "not parked"
    end in
  VehicleType_name (vehicle_type self) +:+ "(" +:+ status +:+ ")".

(** One round of the loops of [park_cars], [park_trucks] and of the full-lot
    demonstration: [v = lot.create_car()] (or [create_truck]) followed by
    [spot = v.request_spot()]. *)
Definition arrive (t : VehicleType) (w : World) : result (option Z * World) :=
  let '(r, w') := create t w in invoke r request_spot w'.

(** The rounds in the order in which they enter the critical section; the
    spots returned are collected as the demonstrations collect them. *)
Fixpoint arrivals (ts : list VehicleType) (w : World)
  : result (list (option Z) * World) :=
  match ts with
  | [] => Ok ([], w)
  | t :: rest =>
      match arrive t w with
      | Ok (spot, w') =>
          match arrivals rest w' with
          | Ok (spots, w'') => Ok (spot :: spots, w'')
          | Raise e => Raise e
          end
      | Raise e => Raise e
      end
  end.

(** What first fit gives when nobody leaves: the lot fills from index 0, a
    vehicle that fits gets the first index after the filled part, one that
    does not fit gets [None] and the next one is tried. [k] is the number of
    spots filled so far. *)
Fixpoint packing (c k : Z) (ts : list VehicleType) : list (option Z) :=
  match ts with
  | [] => []
  | t :: rest =>
      if bool_decide (k + spots_needed t ≤ c)
      then Some k :: packing c (k + spots_needed t) rest
      else None :: packing c k rest
  end.

(** The number of spots filled after these arrivals, under the same rule. *)
Fixpoint level (c k : Z) (ts : list VehicleType) : Z :=
  match ts with
  | [] => k
  | t :: rest =>
      if bool_decide (k + spots_needed t ≤ c)
      then level c (k + spots_needed t) rest
      else level c k rest
  end.

(** The spots a list of vehicles asks for. *)
Definition demand (ts : list VehicleType) : Z :=
  foldr (λ t acc, spots_needed t + acc) 0 ts.

(** The lot is filled exactly up to index [k]. *)
Definition filled_to (k : Z) (l : ParkingLot) : Prop :=
  0 ≤ k ≤ Z.max 0 (capacity l)
  ∧ lot_wf l
  ∧ (∀ j, 0 ≤ j < k → spots l !! Z.to_nat j = Some true)
  ∧ (∀ j, k ≤ j < capacity l → spots l !! Z.to_nat j = Some false).

(** Ten cars and three trucks, in the order of one possible schedule of the
    three threads of [demonstrate_thread_safety]. *)
Definition thread_schedule : list VehicleType :=
  [ CAR; TRUCK; CAR; CAR; TRUCK; CAR; CAR; CAR; TRUCK; CAR; CAR; CAR; CAR ].

(** A truck parked at 2-3 between two parked cars, on a lot of capacity 5. *)
Definition busy_calls : list Call :=
  [ create_car_call; create_car_call; create_truck_call; create_car_call;
    request_spot_call 0; request_spot_call 1; request_spot_call 2;
    request_spot_call 3; yield_spot_call 0 0 ].

Definition busy : World :=
  {| lot := {| capacity := 5; spots := [false; true; true; true; true] |};
     vehicles := [ car_at None; car_at (Some 1); truck_at (Some 2);
                   car_at (Some 4) ];
     console := [] |}.

(** Unfolding of the monad in proofs. *)
Ltac unfold_M :=
  unfold mbind, mret, M_bind, M_ret, result_bind, result_ret,
    get_spot_index, get_capacity, on_lot, print, set_spot_index in *;
  cbn in *.

(** * Properties *)

(** ** Indexing *)

Lemma getitem_nonneg {A} (l : list A) (i : Z) :
  0 ≤ i → getitem l i = from_option Ok (Raise IndexError) (l !! Z.to_nat i).
Proof.
  intros Hi. unfold getitem, norm_index. cbv zeta.
  rewrite (bool_decide_eq_false_2 (i < 0)) by lia.
  case_bool_decide as Hr; [done|].
  rewrite (lookup_ge_None_2 l (Z.to_nat i)) by lia. done.
Qed.

Lemma getitem_Ok {A} (l : list A) (i : Z) (x : A) :
  0 ≤ i → getitem l i = Ok x ↔ l !! Z.to_nat i = Some x.
Proof.
  intros Hi. rewrite getitem_nonneg by done.
  destruct (l !! Z.to_nat i); simpl; split; congruence.
Qed.

Lemma getitem_in_range {A} (l : list A) (i : Z) :
  0 ≤ i < Z.of_nat (length l) → ∃ x, getitem l i = Ok x.
Proof.
  intros Hi. rewrite getitem_nonneg by lia.
  destruct (lookup_lt_is_Some_2 l (Z.to_nat i)) as [x ->]; [lia|]. by exists x.
Qed.

Lemma setitem_nonneg {A} (l : list A) (i : Z) (x : A) :
  0 ≤ i < Z.of_nat (length l) → setitem l i x = Ok (<[Z.to_nat i := x]> l).
Proof.
  intros Hi. unfold setitem, norm_index. cbv zeta.
  rewrite (bool_decide_eq_false_2 (i < 0)) by lia.
  by rewrite bool_decide_eq_true_2 by lia.
Qed.

(** ** The two searches *)

Lemma find_single_loop_sound l m n r :
  _find_single_spot_loop l (seqZ m n) = Ok r →
  match r with
  | Some i => m ≤ i < m + n ∧ getitem (spots l) i = Ok false
              ∧ ∀ j, m ≤ j < i → getitem (spots l) j = Ok true
  | None => ∀ j, m ≤ j < m + n → getitem (spots l) j = Ok true
  end.
Proof.
  remember (Z.to_nat n) as k eqn:Hk. revert m n Hk r.
  induction k as [|k IH]; intros m n Hk r.
  - rewrite seqZ_nil by lia. intros [= <-]. intros j Hj. lia.
  - rewrite seqZ_cons by lia. simpl.
    destruct (getitem (spots l) m) as [[]|e] eqn:Hm; simpl; [| |done].
    + intros Hr. apply IH in Hr; [|lia].
      destruct r as [i|].
      * destruct Hr as (Hi & Hfree & Hbefore). split; [lia|]; split; [done|].
        intros j Hj. destruct (decide (j = m)) as [->|]; [done|].
        apply Hbefore. lia.
      * intros j Hj. destruct (decide (j = m)) as [->|]; [done|].
        apply Hr. lia.
    + intros [= <-]. split; [lia|]; split; [done|]. intros j Hj. lia.
Qed.

Lemma find_single_loop_total l m n :
  0 ≤ m → m + n ≤ Z.of_nat (length (spots l)) →
  ∃ r, _find_single_spot_loop l (seqZ m n) = Ok r.
Proof.
  remember (Z.to_nat n) as k eqn:Hk. revert m n Hk.
  induction k as [|k IH]; intros m n Hk Hm Hn.
  - rewrite seqZ_nil by lia. by exists None.
  - rewrite seqZ_cons by lia. simpl.
    destruct (getitem_in_range (spots l) m) as [[] ->]; [lia| |]; simpl.
    + apply IH; lia.
    + by exists (Some m).
Qed.

Lemma find_adjacent_loop_sound l m n r :
  _find_adjacent_spots_loop l (seqZ m n) = Ok r →
  match r with
  | Some i => m ≤ i < m + n
              ∧ getitem (spots l) i = Ok false
              ∧ getitem (spots l) (i + 1) = Ok false
              ∧ ∀ j, m ≤ j < i →
                  getitem (spots l) j = Ok true
                  ∨ getitem (spots l) (j + 1) = Ok true
  | None => ∀ j, m ≤ j < m + n →
              getitem (spots l) j = Ok true
              ∨ getitem (spots l) (j + 1) = Ok true
  end.
Proof.
  remember (Z.to_nat n) as k eqn:Hk. revert m n Hk r.
  induction k as [|k IH]; intros m n Hk r.
  - rewrite seqZ_nil by lia. intros [= <-]. intros j Hj. lia.
  - rewrite seqZ_cons by lia. simpl.
    assert (Hrest : ∀ r,
      (getitem (spots l) m = Ok true ∨ getitem (spots l) (m + 1) = Ok true) →
      _find_adjacent_spots_loop l (seqZ (Z.succ m) (Z.pred n)) = Ok r →
      match r with
      | Some i => m ≤ i < m + n
                  ∧ getitem (spots l) i = Ok false
                  ∧ getitem (spots l) (i + 1) = Ok false
                  ∧ ∀ j, m ≤ j < i →
                      getitem (spots l) j = Ok true
                      ∨ getitem (spots l) (j + 1) = Ok true
      | None => ∀ j, m ≤ j < m + n →
                  getitem (spots l) j = Ok true
                  ∨ getitem (spots l) (j + 1) = Ok true
      end).
    { intros r' Hocc Hr. apply IH in Hr; [|lia].
      destruct r' as [i|].
      - destruct Hr as (Hi & H1 & H2 & Hbefore). split; [lia|]; split; [done|]; split; [done|].
        intros j Hj. destruct (decide (j = m)) as [->|]; [done|].
        apply Hbefore. lia.
      - intros j Hj. destruct (decide (j = m)) as [->|]; [done|].
        apply Hr. lia. }
    destruct (getitem (spots l) m) as [[]|e] eqn:Hm; simpl; [| |done].
    + apply Hrest. by left.
    + destruct (getitem (spots l) (m + 1)) as [[]|e] eqn:Hm1; simpl; [| |done].
      * apply Hrest. by right.
      * intros [= <-]. split; [lia|]; split; [done|]; split; [done|]. intros j Hj. lia.
Qed.

Lemma find_adjacent_loop_total l m n :
  0 ≤ m → m + n + 1 ≤ Z.of_nat (length (spots l)) →
  ∃ r, _find_adjacent_spots_loop l (seqZ m n) = Ok r.
Proof.
  remember (Z.to_nat n) as k eqn:Hk. revert m n Hk.
  induction k as [|k IH]; intros m n Hk Hm Hn.
  - rewrite seqZ_nil by lia. by exists None.
  - rewrite seqZ_cons by lia. simpl.
    destruct (getitem_in_range (spots l) m) as [[] ->]; [lia| |]; simpl.
    + apply IH; lia.
    + destruct (getitem_in_range (spots l) (m + 1)) as [[] ->]; [lia| |]; simpl.
      * apply IH; lia.
      * by exists (Some m).
Qed.

Lemma find_for_sound t l r :
  find_for t l = Ok r →
  match r with
  | Some i => 0 ≤ i < index_bound t l
              ∧ ∀ j, j ∈ footprint t i → getitem (spots l) j = Ok false
  | None => True
  end.
Proof.
  destruct t; simpl; intros Hr.
  - apply find_single_loop_sound in Hr. destruct r as [i|]; [|done].
    destruct Hr as (Hi & Hfree & _). split; [lia|].
    intros j ->%list_elem_of_singleton. done.
  - apply find_adjacent_loop_sound in Hr. destruct r as [i|]; [|done].
    destruct Hr as (Hi & H1 & H2 & _). split; [lia|].
    intros j Hj. apply elem_of_cons in Hj as [->|Hj]; [done|].
    apply list_elem_of_singleton in Hj as ->. done.
Qed.

Lemma find_for_total t l : lot_wf l → ∃ r, find_for t l = Ok r.
Proof.
  unfold lot_wf. intros Hwf. destruct t; simpl.
  - destruct (decide (0 ≤ capacity l)).
    + apply find_single_loop_total; lia.
    + unfold _find_single_spot, range. rewrite seqZ_nil by lia. by exists None.
  - destruct (decide (0 ≤ capacity l - 1)).
    + apply find_adjacent_loop_total; lia.
    + unfold _find_adjacent_spots, range. rewrite seqZ_nil by lia. by exists None.
Qed.

(** ** The four methods, branch by branch *)

Section methods.
Variable f : Frame.
Let t := vehicle_type (self f).
Let l := parking_lot f.

Lemma request_spot_held s :
  spot_index (self f) = Some s →
  request_spot f = Ok (None, printed (msg_already_parked t s) f).
Proof.
  intros Hs. unfold request_spot, Car.request_spot, Truck.request_spot.
  subst t. destruct (vehicle_type (self f)); unfold_M; rewrite Hs; reflexivity.
Qed.

Lemma request_spot_full :
  spot_index (self f) = None → find_for t l = Ok None →
  request_spot f = Ok (None, f).
Proof.
  intros Hs Hfind. unfold request_spot, Car.request_spot, Truck.request_spot.
  subst t l. destruct (vehicle_type (self f)); unfold_M;
    rewrite Hs, Hfind; reflexivity.
Qed.

Lemma request_spot_raise e :
  spot_index (self f) = None → find_for t l = Raise e →
  request_spot f = Raise e.
Proof.
  intros Hs Hfind. unfold request_spot, Car.request_spot, Truck.request_spot.
  subst t l. destruct (vehicle_type (self f)); unfold_M;
    rewrite Hs, Hfind; reflexivity.
Qed.

Lemma request_spot_commit idx :
  spot_index (self f) = None → find_for t l = Ok (Some idx) →
  request_spot f
  = Ok (Some idx, moved (Some idx) (set_all (spots l) (footprint t idx) true) f).
Proof.
  intros Hs Hfind. pose proof (find_for_sound _ _ _ Hfind) as [Hidx Hfree].
  unfold request_spot, Car.request_spot, Truck.request_spot.
  subst t l. destruct (vehicle_type (self f)); unfold_M;
    rewrite Hs, Hfind; unfold set_spot; cbn.
  - assert (Hin : spots (parking_lot f) !! Z.to_nat idx = Some false).
    { apply getitem_Ok; [lia|]. apply Hfree, list_elem_of_here. }
    apply lookup_lt_Some in Hin.
    rewrite setitem_nonneg by lia. reflexivity.
  - assert (Hin : spots (parking_lot f) !! Z.to_nat idx = Some false).
    { apply getitem_Ok; [lia|]. apply Hfree, list_elem_of_here. }
    assert (Hin' : spots (parking_lot f) !! Z.to_nat (idx + 1) = Some false).
    { apply getitem_Ok; [lia|].
      apply Hfree, list_elem_of_further, list_elem_of_here. }
    apply lookup_lt_Some in Hin, Hin'.
    rewrite setitem_nonneg by lia. cbn.
    rewrite setitem_nonneg by (rewrite length_insert; lia). reflexivity.
Qed.

Lemma yield_spot_invalid idx :
  idx < 0 ∨ idx >= index_bound t l →
  yield_spot idx f = Ok (false, printed (msg_invalid_index t idx) f).
Proof.
  intros Hidx. unfold yield_spot, Car.yield_spot, Truck.yield_spot.
  subst t l. destruct (vehicle_type (self f)); unfold_M.
  - destruct (decide (idx < 0)).
    + rewrite (bool_decide_eq_true_2 (idx < 0)) by done. reflexivity.
    + rewrite (bool_decide_eq_true_2 (idx >= _)) by lia.
      rewrite orb_true_r. reflexivity.
  - destruct (decide (idx < 0)).
    + rewrite (bool_decide_eq_true_2 (idx < 0)) by done. reflexivity.
    + rewrite (bool_decide_eq_true_2 (idx >= _)) by lia.
      rewrite orb_true_r. reflexivity.
Qed.

Lemma yield_spot_not_parked idx :
  0 ≤ idx < index_bound t l → spot_index (self f) = None →
  yield_spot idx f = Ok (false, printed (msg_not_parked t) f).
Proof.
  intros Hidx Hs. unfold yield_spot, Car.yield_spot, Truck.yield_spot.
  subst t l. destruct (vehicle_type (self f)); unfold_M;
    rewrite (bool_decide_eq_false_2 (idx < 0)) by lia;
    rewrite (bool_decide_eq_false_2 (idx >= _)) by lia;
    cbn; rewrite Hs; reflexivity.
Qed.

Lemma yield_spot_mismatch idx s :
  0 ≤ idx < index_bound t l → spot_index (self f) = Some s → s ≠ idx →
  yield_spot idx f = Ok (false, printed (msg_parked_elsewhere t s idx) f).
Proof.
  intros Hidx Hs Hne. unfold yield_spot, Car.yield_spot, Truck.yield_spot.
  subst t l. destruct (vehicle_type (self f)); unfold_M;
    rewrite (bool_decide_eq_false_2 (idx < 0)) by lia;
    rewrite (bool_decide_eq_false_2 (idx >= _)) by lia;
    cbn; rewrite Hs; rewrite (bool_decide_eq_true_2 (s ≠ idx)) by done;
    reflexivity.
Qed.

Lemma yield_spot_release idx :
  lot_wf l → 0 ≤ idx < index_bound t l → spot_index (self f) = Some idx →
  yield_spot idx f
  = Ok (true, moved None (set_all (spots l) (footprint t idx) false) f).
Proof.
  unfold lot_wf. intros Hwf Hidx Hs.
  unfold yield_spot, Car.yield_spot, Truck.yield_spot.
  subst t l. destruct (vehicle_type (self f)); unfold_M;
    rewrite (bool_decide_eq_false_2 (idx < 0)) by lia;
    rewrite (bool_decide_eq_false_2 (idx >= _)) by lia;
    cbn; rewrite Hs; rewrite (bool_decide_eq_false_2 (idx ≠ idx)) by tauto;
    cbn; unfold set_spot; cbn.
  - rewrite setitem_nonneg by lia. reflexivity.
  - rewrite setitem_nonneg by lia. cbn.
    rewrite setitem_nonneg by (rewrite length_insert; lia). reflexivity.
Qed.

End methods.

(** ** Counting and updating *)

Lemma sum_insert (l : list bool) (k : nat) (b old : bool) :
  l !! k = Some old →
  sum (<[k:=b]> l) = sum l - int_of_bool old + int_of_bool b.
Proof.
  revert k. induction l as [|x l IH]; intros [|k] Hk; simplify_eq/=.
  - lia.
  - rewrite (IH k Hk). lia.
Qed.

Lemma total_held_insert (vs : list Vehicle) (r : nat) (v v' : Vehicle) :
  vs !! r = Some v →
  total_held (<[r:=v']> vs) = total_held vs - spots_held v + spots_held v'.
Proof.
  revert r. induction vs as [|x vs IH]; intros [|r] Hr; simplify_eq/=.
  - lia.
  - rewrite (IH r Hr). lia.
Qed.

Lemma total_held_app (vs vs' : list Vehicle) :
  total_held (vs ++ vs') = total_held vs + total_held vs'.
Proof. induction vs as [|x vs IH]; simpl; [done|]. rewrite IH. lia. Qed.

Lemma sum_replicate_false (n : nat) : sum (replicate n false) = 0.
Proof. induction n as [|n IH]; simpl; [done|]. by rewrite IH. Qed.

Lemma set_all_length l js b : length (set_all l js b) = length l.
Proof.
  unfold set_all. revert l. induction js as [|j js IH]; intros l; simpl; [done|].
  rewrite IH. apply length_insert.
Qed.

Lemma set_all_lookup_other l js b (k : nat) :
  (∀ j, j ∈ js → Z.to_nat j ≠ k) → set_all l js b !! k = l !! k.
Proof.
  unfold set_all. revert l. induction js as [|j js IH]; intros l Hk; simpl; [done|].
  rewrite IH.
  - apply list_lookup_insert_ne, Hk, list_elem_of_here.
  - intros j' Hj'. apply Hk, list_elem_of_further, Hj'.
Qed.

Lemma set_all_lookup_in l js b (j : Z) :
  j ∈ js → (Z.to_nat j < length l)%nat → set_all l js b !! Z.to_nat j = Some b.
Proof.
  revert l j. induction js as [|j' js IH]; intros l j Hj Hlen.
  - by apply elem_of_nil in Hj.
  - change (set_all l (j' :: js) b) with (set_all (<[Z.to_nat j':=b]> l) js b).
    destruct (decide (Z.to_nat j ∈ (Z.to_nat <$> js))) as [Hin|Hout].
    + apply list_elem_of_fmap in Hin as (j'' & Heq & Hj'').
      rewrite Heq. apply IH; [done|]. rewrite length_insert. lia.
    + apply elem_of_cons in Hj as [->|Hj].
      * rewrite set_all_lookup_other.
        -- by apply list_lookup_insert_eq.
        -- intros j'' Hj'' Heq. apply Hout. rewrite <- Heq.
           apply list_elem_of_fmap. eauto.
      * exfalso. apply Hout, list_elem_of_fmap. eauto.
Qed.

Lemma sum_set_all_footprint l t idx b :
  0 ≤ idx →
  (∀ j, j ∈ footprint t idx → l !! Z.to_nat j = Some (negb b)) →
  sum (set_all l (footprint t idx) b)
  = sum l + (int_of_bool b - int_of_bool (negb b)) * spots_needed t.
Proof.
  intros Hidx Hold. destruct t; simpl in *.
  - rewrite (sum_insert _ _ _ (negb b)); [lia|].
    apply Hold, list_elem_of_here.
  - rewrite (sum_insert _ _ _ (negb b)).
    + rewrite (sum_insert _ _ _ (negb b)); [lia|].
      apply Hold, list_elem_of_here.
    + rewrite list_lookup_insert_ne by lia.
      apply Hold, list_elem_of_further, list_elem_of_here.
Qed.

Lemma footprint_nonneg t idx j : 0 ≤ idx → j ∈ footprint t idx → 0 ≤ j.
Proof.
  intros Hidx Hj. destruct t; simpl in Hj.
  - apply list_elem_of_singleton in Hj. lia.
  - apply elem_of_cons in Hj as [->|Hj]; [lia|].
    apply list_elem_of_singleton in Hj. lia.
Qed.

Lemma spots_held_footprint v :
  spots_held v = Z.of_nat (length (held_spots v)).
Proof.
  unfold spots_held, held_spots.
  destruct (spot_index v); [|done]. by destruct (vehicle_type v).
Qed.

(** ** The invariant is established by [fresh] and kept by every call *)

Lemma inv_fresh c : inv (fresh c).
Proof.
  split; simpl.
  - unfold lot_wf. simpl. apply length_replicate.
  - intros r v j Hr. by rewrite lookup_nil in Hr.
  - intros r1 r2 v1 v2 _ Hr. by rewrite lookup_nil in Hr.
  - apply sum_replicate_false.
Qed.

Lemma inv_same w w' :
  lot w' = lot w → vehicles w' = vehicles w → inv w → inv w'.
Proof.
  intros Hl Hv [Hwf Hown Hdis Hcons].
  split; rewrite ?Hl, ?Hv; done.
Qed.

Lemma inv_create t w : inv w → inv (create t w).2.
Proof.
  intros [Hwf Hown Hdis Hcons]. split; simpl.
  - done.
  - intros r v j Hr Hj. apply lookup_app_Some in Hr as [Hr|[_ Hr]]; [by eauto|].
    apply list_lookup_singleton_Some in Hr as [_ <-]. by apply elem_of_nil in Hj.
  - intros r1 r2 v1 v2 Hne H1 H2 j Hj1 Hj2.
    apply lookup_app_Some in H1 as [H1|[_ H1]];
      [|apply list_lookup_singleton_Some in H1 as [_ <-]; by apply elem_of_nil in Hj1].
    apply lookup_app_Some in H2 as [H2|[_ H2]];
      [|apply list_lookup_singleton_Some in H2 as [_ <-]; by apply elem_of_nil in Hj2].
    exact (Hdis r1 r2 v1 v2 Hne H1 H2 j Hj1 Hj2).
  - rewrite total_held_app, Hcons. cbn. lia.
Qed.

Lemma inv_commit w r v idx out :
  inv w → vehicles w !! r = Some v → spot_index v = None → 0 ≤ idx →
  (∀ j, j ∈ footprint (vehicle_type v) idx →
        spots (lot w) !! Z.to_nat j = Some false) →
  inv {| lot := {| capacity := capacity (lot w);
                   spots := set_all (spots (lot w))
                              (footprint (vehicle_type v) idx) true |};
         vehicles := <[r := {| vehicle_type := vehicle_type v;
                               spot_index := Some idx |}]> (vehicles w);
         console := out |}.
Proof.
  intros [Hwf Hown Hdis Hcons] Hr Hs Hidx Hfree.
  assert (Hother : ∀ r' v' j, vehicles w !! r' = Some v' → j ∈ held_spots v' →
            0 ≤ j ∧ (j ∉ footprint (vehicle_type v) idx)
            ∧ set_all (spots (lot w)) (footprint (vehicle_type v) idx) true
                !! Z.to_nat j = Some true).
  { intros r' v' j Hr' Hj. destruct (Hown r' v' j Hr' Hj) as [Hj0 Hocc].
    assert (Hout : j ∉ footprint (vehicle_type v) idx).
    { intros Hin. apply Hfree in Hin. congruence. }
    split; [done|]. split; [done|].
    rewrite set_all_lookup_other; [done|].
    intros j' Hj' Heq. pose proof (footprint_nonneg _ _ _ Hidx Hj').
    apply Hout. by replace j with j' by lia. }
  split; simpl.
  - unfold lot_wf in *. simpl. by rewrite set_all_length.
  - intros r' v' j Hr' Hj. destruct (decide (r' = r)) as [->|Hne].
    + rewrite list_lookup_insert_eq in Hr' by (by eapply lookup_lt_Some).
      injection Hr' as <-. unfold held_spots in Hj. simpl in Hj.
      split; [by eapply footprint_nonneg|].
      apply set_all_lookup_in; [done|]. eapply lookup_lt_Some, Hfree, Hj.
    + rewrite list_lookup_insert_ne in Hr' by done.
      by destruct (Hother r' v' j Hr' Hj) as (? & _ & ?).
  - intros r1 r2 v1 v2 Hne H1 H2 j Hj1 Hj2.
    destruct (decide (r1 = r)) as [->|Hne1].
    + rewrite list_lookup_insert_eq in H1 by (by eapply lookup_lt_Some).
      injection H1 as <-. rewrite list_lookup_insert_ne in H2 by done.
      by destruct (Hother r2 v2 j H2 Hj2) as (_ & Hout & _).
    + rewrite list_lookup_insert_ne in H1 by done.
      destruct (decide (r2 = r)) as [->|Hne2].
      * rewrite list_lookup_insert_eq in H2 by (by eapply lookup_lt_Some).
        injection H2 as <-.
        by destruct (Hother r1 v1 j H1 Hj1) as (_ & Hout & _).
      * rewrite list_lookup_insert_ne in H2 by done.
        exact (Hdis r1 r2 v1 v2 Hne H1 H2 j Hj1 Hj2).
  - rewrite sum_set_all_footprint by done.
    rewrite (total_held_insert _ _ v) by done.
    unfold spots_held. rewrite Hs. simpl. lia.
Qed.

Lemma inv_release w r v idx out :
  inv w → vehicles w !! r = Some v → spot_index v = Some idx →
  inv {| lot := {| capacity := capacity (lot w);
                   spots := set_all (spots (lot w))
                              (footprint (vehicle_type v) idx) false |};
         vehicles := <[r := {| vehicle_type := vehicle_type v;
                               spot_index := None |}]> (vehicles w);
         console := out |}.
Proof.
  intros [Hwf Hown Hdis Hcons] Hr Hs.
  assert (Hmine : ∀ j, j ∈ footprint (vehicle_type v) idx →
            0 ≤ j ∧ spots (lot w) !! Z.to_nat j = Some true).
  { intros j Hj. apply (Hown r v j Hr). unfold held_spots. by rewrite Hs. }
  assert (Hidx : 0 ≤ idx).
  { apply (Hmine idx). destruct (vehicle_type v); apply list_elem_of_here. }
  assert (Hother : ∀ r' v' j, r' ≠ r → vehicles w !! r' = Some v' →
            j ∈ held_spots v' →
            0 ≤ j
            ∧ set_all (spots (lot w)) (footprint (vehicle_type v) idx) false
                !! Z.to_nat j = Some true).
  { intros r' v' j Hne Hr' Hj. destruct (Hown r' v' j Hr' Hj) as [Hj0 Hocc].
    split; [done|]. rewrite set_all_lookup_other; [done|].
    intros j' Hj' Heq. destruct (Hmine j' Hj') as [Hj'0 _].
    apply (Hdis r' r v' v Hne Hr' Hr j); [done|].
    unfold held_spots. rewrite Hs. by replace j with j' by lia. }
  split; simpl.
  - unfold lot_wf in *. simpl. by rewrite set_all_length.
  - intros r' v' j Hr' Hj. destruct (decide (r' = r)) as [->|Hne].
    + rewrite list_lookup_insert_eq in Hr' by (by eapply lookup_lt_Some).
      injection Hr' as <-. by apply elem_of_nil in Hj.
    + rewrite list_lookup_insert_ne in Hr' by done. by eapply Hother.
  - intros r1 r2 v1 v2 Hne H1 H2 j Hj1 Hj2.
    destruct (decide (r1 = r)) as [->|Hne1].
    + rewrite list_lookup_insert_eq in H1 by (by eapply lookup_lt_Some).
      injection H1 as <-. by apply elem_of_nil in Hj1.
    + rewrite list_lookup_insert_ne in H1 by done.
      destruct (decide (r2 = r)) as [->|Hne2].
      * rewrite list_lookup_insert_eq in H2 by (by eapply lookup_lt_Some).
        injection H2 as <-. by apply elem_of_nil in Hj2.
      * rewrite list_lookup_insert_ne in H2 by done.
        exact (Hdis r1 r2 v1 v2 Hne H1 H2 j Hj1 Hj2).
  - rewrite sum_set_all_footprint; [|done|intros j Hj; by apply Hmine].
    rewrite (total_held_insert _ _ v) by done.
    unfold spots_held. rewrite Hs. simpl. lia.
Qed.

(** ** Every call on a well-formed lot takes exactly one branch *)

Lemma request_spot_cases f :
  lot_wf (parking_lot f) →
  let t := vehicle_type (self f) in
  (∃ s, spot_index (self f) = Some s
        ∧ request_spot f = Ok (None, printed (msg_already_parked t s) f))
  ∨ (spot_index (self f) = None ∧ find_for t (parking_lot f) = Ok None
     ∧ request_spot f = Ok (None, f))
  ∨ (∃ idx, spot_index (self f) = None
        ∧ find_for t (parking_lot f) = Ok (Some idx)
        ∧ request_spot f
          = Ok (Some idx,
                moved (Some idx)
                  (set_all (spots (parking_lot f)) (footprint t idx) true) f)).
Proof.
  intros Hwf t. destruct (spot_index (self f)) as [s|] eqn:Hs.
  - left. exists s. split; [done|]. by apply request_spot_held.
  - right. destruct (find_for_total t _ Hwf) as [[idx|] Hfind].
    + right. exists idx. split; [done|]. split; [done|].
      by apply request_spot_commit.
    + left. split; [done|]. split; [done|]. by apply request_spot_full.
Qed.

Lemma yield_spot_cases f idx :
  lot_wf (parking_lot f) →
  let t := vehicle_type (self f) in
  let l := parking_lot f in
  ((idx < 0 ∨ idx >= index_bound t l)
   ∧ yield_spot idx f = Ok (false, printed (msg_invalid_index t idx) f))
  ∨ (0 ≤ idx < index_bound t l ∧ spot_index (self f) = None
     ∧ yield_spot idx f = Ok (false, printed (msg_not_parked t) f))
  ∨ (∃ s, 0 ≤ idx < index_bound t l ∧ spot_index (self f) = Some s ∧ s ≠ idx
        ∧ yield_spot idx f = Ok (false, printed (msg_parked_elsewhere t s idx) f))
  ∨ (0 ≤ idx < index_bound t l ∧ spot_index (self f) = Some idx
     ∧ yield_spot idx f
       = Ok (true, moved None (set_all (spots l) (footprint t idx) false) f)).
Proof.
  intros Hwf t l.
  destruct (decide (0 ≤ idx < index_bound t l)) as [Hin|Hout].
  - right. destruct (spot_index (self f)) as [s|] eqn:Hs.
    + right. destruct (decide (s = idx)) as [->|Hne].
      * right. split; [done|]. split; [done|]. by apply yield_spot_release.
      * left. exists s. split; [done|]. split; [done|]. split; [done|].
        by apply yield_spot_mismatch.
    + left. split; [done|]. split; [done|]. by apply yield_spot_not_parked.
  - left. assert (idx < 0 ∨ idx >= index_bound t l) as Hbad by lia.
    split; [done|]. by apply yield_spot_invalid.
Qed.

Lemma invoke_Ok {A} (r : nat) (m : M A) (w w' : World) (a : A) :
  invoke r m w = Ok (a, w') →
  ∃ v f, vehicles w !! r = Some v
         ∧ m {| self := v; parking_lot := lot w; stdout := console w |} = Ok (a, f)
         ∧ w' = {| lot := parking_lot f;
                   vehicles := <[r := self f]> (vehicles w);
                   console := stdout f |}.
Proof.
  unfold invoke. destruct (vehicles w !! r) as [v|]; [|done].
  destruct (m _) as [[a' f]|e] eqn:Hm; [|done].
  intros [= -> <-]. by exists v, f.
Qed.

Lemma inv_unmoved w r v out :
  inv w → vehicles w !! r = Some v →
  inv {| lot := lot w; vehicles := <[r := v]> (vehicles w); console := out |}.
Proof.
  intros Hinv Hr. apply (inv_same w); [done| |done].
  simpl. by apply list_insert_id.
Qed.

Lemma invoke_request_spot_inv w r i w' :
  inv w → invoke r request_spot w = Ok (i, w') → inv w'.
Proof.
  intros Hinv (v & f & Hr & Hrun & ->)%invoke_Ok.
  destruct (request_spot_cases _ (inv_wf _ Hinv : lot_wf (parking_lot
    {| self := v; parking_lot := lot w; stdout := console w |})))
    as [(s & _ & Heq)|[(_ & _ & Heq)|(idx & Hs & Hfind & Heq)]];
    rewrite Heq in Hrun; injection Hrun as <- <-; simpl in *.
  - by apply inv_unmoved.
  - by apply inv_unmoved.
  - pose proof (find_for_sound _ _ _ Hfind) as [Hidx Hfree].
    apply inv_commit; [done|done|done|lia|].
    intros j Hj. apply getitem_Ok; [|by apply Hfree].
    eapply footprint_nonneg; [|done]. lia.
Qed.

Lemma invoke_yield_spot_inv w r idx b w' :
  inv w → invoke r (yield_spot idx) w = Ok (b, w') → inv w'.
Proof.
  intros Hinv (v & f & Hr & Hrun & ->)%invoke_Ok.
  destruct (yield_spot_cases _ idx (inv_wf _ Hinv : lot_wf (parking_lot
    {| self := v; parking_lot := lot w; stdout := console w |})))
    as [(_ & Heq)|[(_ & _ & Heq)|[(s & _ & _ & _ & Heq)|(_ & Hs & Heq)]]];
    rewrite Heq in Hrun; injection Hrun as <- <-; simpl in *.
  - by apply inv_unmoved.
  - by apply inv_unmoved.
  - by apply inv_unmoved.
  - by apply inv_release.
Qed.

Lemma exec_inv c w x w' : inv w → exec c w = Ok (x, w') → inv w'.
Proof.
  intros Hinv. destruct c as [| |r|r idx]; simpl.
  - intros [= _ <-]. by apply (inv_create CAR).
  - intros [= _ <-]. by apply (inv_create TRUCK).
  - destruct (invoke r request_spot w) as [[i w'']|e] eqn:Hrun; [|done].
    intros [= _ <-]. by eapply invoke_request_spot_inv.
  - destruct (invoke r (yield_spot idx) w) as [[b w'']|e] eqn:Hrun; [|done].
    intros [= _ <-]. by eapply invoke_yield_spot_inv.
Qed.

Lemma run_inv calls w w' : inv w → run calls w = Ok w' → inv w'.
Proof.
  revert w. induction calls as [|c calls IH]; intros w Hinv; simpl.
  - by intros [= <-].
  - destruct (exec c w) as [[x w'']|e] eqn:Hexec; [|done].
    intros Hrun. eapply IH; [|done]. by eapply exec_inv.
Qed.

(** No call raises on a reachable world, as long as the driver names vehicles
    it has created. *)
Lemma invoke_request_spot_total w r :
  inv w → (r < length (vehicles w))%nat →
  ∃ i w', invoke r request_spot w = Ok (i, w')
          ∧ length (vehicles w') = length (vehicles w).
Proof.
  intros Hinv Hr. apply lookup_lt_is_Some in Hr as [v Hr].
  unfold invoke. rewrite Hr.
  destruct (request_spot_cases _ (inv_wf _ Hinv : lot_wf (parking_lot
    {| self := v; parking_lot := lot w; stdout := console w |})))
    as [(s & _ & ->)|[(_ & _ & ->)|(idx & _ & _ & ->)]];
    eexists _, _; (split; [reflexivity|]); simpl; apply length_insert.
Qed.

Lemma invoke_yield_spot_total w r idx :
  inv w → (r < length (vehicles w))%nat →
  ∃ b w', invoke r (yield_spot idx) w = Ok (b, w')
          ∧ length (vehicles w') = length (vehicles w).
Proof.
  intros Hinv Hr. apply lookup_lt_is_Some in Hr as [v Hr].
  unfold invoke. rewrite Hr.
  destruct (yield_spot_cases _ idx (inv_wf _ Hinv : lot_wf (parking_lot
    {| self := v; parking_lot := lot w; stdout := console w |})))
    as [(_ & ->)|[(_ & _ & ->)|[(s & _ & _ & _ & ->)|(_ & _ & ->)]]];
    eexists _, _; (split; [reflexivity|]); simpl; apply length_insert.
Qed.

Lemma run_total calls w :
  inv w → well_scoped (length (vehicles w)) calls = true →
  ∃ w', run calls w = Ok w'.
Proof.
  revert w. induction calls as [|c calls IH]; intros w Hinv Hscoped; simpl.
  - by exists w.
  - destruct c as [| |r|r idx]; simpl in *.
    + apply IH; [by apply (inv_create CAR)|].
      simpl. rewrite length_app. simpl. by rewrite Nat.add_1_r.
    + apply IH; [by apply (inv_create TRUCK)|].
      simpl. rewrite length_app. simpl. by rewrite Nat.add_1_r.
    + apply andb_prop in Hscoped as [Hr%bool_decide_eq_true Hscoped].
      destruct (invoke_request_spot_total w r Hinv Hr) as (i & w' & Hrun & Hlen).
      rewrite Hrun. apply IH; [by eapply invoke_request_spot_inv|].
      by rewrite Hlen.
    + apply andb_prop in Hscoped as [Hr%bool_decide_eq_true Hscoped].
      destruct (invoke_yield_spot_total w r idx Hinv Hr) as (b & w' & Hrun & Hlen).
      rewrite Hrun. apply IH; [by eapply invoke_yield_spot_inv|].
      by rewrite Hlen.
Qed.

Lemma exec_capacity c w x w' :
  inv w → exec c w = Ok (x, w') → capacity (lot w') = capacity (lot w).
Proof.
  intros Hinv. destruct c as [| |r|r idx]; simpl.
  - by intros [= _ <-].
  - by intros [= _ <-].
  - destruct (invoke r request_spot w) as [[i w'']|e] eqn:Hrun; [|done].
    intros [= _ <-]. apply invoke_Ok in Hrun as (v & f & Hr & Hrun & ->).
    destruct (request_spot_cases _ (inv_wf _ Hinv : lot_wf (parking_lot
      {| self := v; parking_lot := lot w; stdout := console w |})))
      as [(s & _ & Heq)|[(_ & _ & Heq)|(idx & _ & _ & Heq)]];
      rewrite Heq in Hrun; by injection Hrun as <- <-.
  - destruct (invoke r (yield_spot idx) w) as [[b w'']|e] eqn:Hrun; [|done].
    intros [= _ <-]. apply invoke_Ok in Hrun as (v & f & Hr & Hrun & ->).
    destruct (yield_spot_cases _ idx (inv_wf _ Hinv : lot_wf (parking_lot
      {| self := v; parking_lot := lot w; stdout := console w |})))
      as [(_ & Heq)|[(_ & _ & Heq)|[(s & _ & _ & _ & Heq)|(_ & _ & Heq)]]];
      rewrite Heq in Hrun; by injection Hrun as <- <-.
Qed.

Lemma run_capacity calls w w' :
  inv w → run calls w = Ok w' → capacity (lot w') = capacity (lot w).
Proof.
  revert w. induction calls as [|c calls IH]; intros w Hinv; simpl.
  - by intros [= <-].
  - destruct (exec c w) as [[x w'']|e] eqn:Hexec; [|done].
    intros Hrun. rewrite (IH w''); [by eapply exec_capacity|by eapply exec_inv|done].
Qed.

(** * The claims *)

(** C3. On every lot with one entry per spot, [_find_single_spot] returns
    the least index [i] in [0 .. capacity-1] whose spot is free, and [None]
    exactly when no spot is free; on [example_lot], capacity 5 with spots
    [true,false,true,false,false], it returns 1. *)
Theorem find_single_spot_first_fit (l : ParkingLot) :
  lot_wf l →
  (∃ r, _find_single_spot l = Ok r
        ∧ match r with
          | Some i => 0 ≤ i < capacity l
                      ∧ getitem (spots l) i = Ok false
                      ∧ ∀ j, 0 ≤ j < i → getitem (spots l) j = Ok true
          | None => ∀ j, 0 ≤ j < capacity l → getitem (spots l) j = Ok true
          end)
  ∧ _find_single_spot example_lot = Ok (Some 1).
Proof.
  intros Hwf. split; [|reflexivity].
  destruct (find_for_total CAR l Hwf) as [r Hr]. exists r. split; [done|].
  apply find_single_loop_sound in Hr. destruct r as [i|].
  - destruct Hr as (Hi & Hfree & Hbefore). split; [lia|]. split; [done|].
    intros j Hj. apply Hbefore. lia.
  - intros j Hj. apply Hr. lia.
Qed.

Lemma find_single_spot_first_fit_witness :
  lot_wf example_lot
  ∧ (∃ r, _find_single_spot example_lot = Ok r
          ∧ match r with
            | Some i => 0 ≤ i < capacity example_lot
                        ∧ getitem (spots example_lot) i = Ok false
                        ∧ ∀ j, 0 ≤ j < i → getitem (spots example_lot) j = Ok true
            | None => ∀ j, 0 ≤ j < capacity example_lot →
                           getitem (spots example_lot) j = Ok true
            end).
Proof.
  split; [reflexivity|].
  apply (find_single_spot_first_fit example_lot). reflexivity.
Defined.

(** C4. On every lot with one entry per spot, [_find_adjacent_spots]
    returns the least index [i] in [0 .. capacity-2] with spots [i] and
    [i+1] both free, and [None] exactly when there is no such pair; on
    [example_lot] it returns 3; and on the lot of capacity 5 with cars left at
    0, 2 and 4 a truck's [request_spot] returns [None] and changes nothing,
    although 2 spots are free. *)
Theorem find_adjacent_spots_first_fit (l : ParkingLot) :
  lot_wf l →
  (∃ r, _find_adjacent_spots l = Ok r
        ∧ match r with
          | Some i => 0 ≤ i ≤ capacity l - 2
                      ∧ getitem (spots l) i = Ok false
                      ∧ getitem (spots l) (i + 1) = Ok false
                      ∧ ∀ j, 0 ≤ j < i →
                          ¬ (getitem (spots l) j = Ok false
                             ∧ getitem (spots l) (j + 1) = Ok false)
          | None => ∀ j, 0 ≤ j ≤ capacity l - 2 →
                      ¬ (getitem (spots l) j = Ok false
                         ∧ getitem (spots l) (j + 1) = Ok false)
          end)
  ∧ _find_adjacent_spots example_lot = Ok (Some 3)
  ∧ (run fragmentation_calls (fresh 5) = Ok fragmented
     ∧ spots (lot fragmented) = [true; false; true; false; true]
     ∧ Avail.free (get_availability (lot fragmented)) = 2
     ∧ vehicles fragmented !! 5%nat = Some (truck_at None)
     ∧ invoke 5 request_spot fragmented = Ok (None, fragmented)).
Proof.
  intros Hwf. split; [|split; [reflexivity|by vm_compute]].
  destruct (find_for_total TRUCK l Hwf) as [r Hr]. exists r. split; [done|].
  apply find_adjacent_loop_sound in Hr. destruct r as [i|].
  - destruct Hr as (Hi & H1 & H2 & Hbefore).
    split; [lia|]. split; [done|]. split; [done|].
    intros j Hj [Hj1 Hj2]. destruct (Hbefore j) as [Hocc|Hocc]; [lia| |]; congruence.
  - intros j Hj [Hj1 Hj2]. destruct (Hr j) as [Hocc|Hocc]; [lia| |]; congruence.
Qed.

Lemma find_adjacent_spots_first_fit_witness :
  lot_wf example_lot
  ∧ ∃ r, _find_adjacent_spots example_lot = Ok r
         ∧ match r with
           | Some i => 0 ≤ i ≤ capacity example_lot - 2
                       ∧ getitem (spots example_lot) i = Ok false
                       ∧ getitem (spots example_lot) (i + 1) = Ok false
                       ∧ ∀ j, 0 ≤ j < i →
                           ¬ (getitem (spots example_lot) j = Ok false
                              ∧ getitem (spots example_lot) (j + 1) = Ok false)
           | None => ∀ j, 0 ≤ j ≤ capacity example_lot - 2 →
                       ¬ (getitem (spots example_lot) j = Ok false
                          ∧ getitem (spots example_lot) (j + 1) = Ok false)
           end.
Proof.
  split; [reflexivity|].
  apply (find_adjacent_spots_first_fit example_lot). reflexivity.
Defined.

(** Shared steps of the claims below. *)
Lemma Car_yield_spot_invalid (f : Frame) (idx : Z) :
  idx < 0 ∨ idx >= capacity (parking_lot f) →
  Car.yield_spot idx f = Ok (false, printed (Car.msg_invalid_index idx) f).
Proof.
  intros Hidx. unfold Car.yield_spot. unfold_M.
  destruct (decide (idx < 0)).
  - rewrite (bool_decide_eq_true_2 (idx < 0)) by done. reflexivity.
  - rewrite (bool_decide_eq_true_2 (idx >= _)) by lia.
    rewrite orb_true_r. reflexivity.
Qed.

Lemma Truck_yield_spot_invalid (f : Frame) (idx : Z) :
  idx < 0 ∨ idx >= capacity (parking_lot f) - 1 →
  Truck.yield_spot idx f = Ok (false, printed (Truck.msg_invalid_index idx) f).
Proof.
  intros Hidx. unfold Truck.yield_spot. unfold_M.
  destruct (decide (idx < 0)).
  - rewrite (bool_decide_eq_true_2 (idx < 0)) by done. reflexivity.
  - rewrite (bool_decide_eq_true_2 (idx >= _)) by lia.
    rewrite orb_true_r. reflexivity.
Qed.

(** C9. In [Car.yield_spot] and in [Truck.yield_spot] the range check comes
    first: an index outside the valid range of the kind ([0 .. capacity-1]
    for a car, [0 .. capacity-2] for a truck) is answered [False] with the
    line "Invalid spot index: ...", whatever the vehicle holds (nothing, or
    another index), and nothing else changes. *)
Theorem yield_spot_range_check_first (f : Frame) (idx : Z) :
  (idx < 0 ∨ idx >= capacity (parking_lot f) →
   Car.yield_spot idx f
   = Ok (false, {| self := self f; parking_lot := parking_lot f;
                   stdout := stdout f ++ [Car.msg_invalid_index idx] |}))
  ∧ (idx < 0 ∨ idx >= capacity (parking_lot f) - 1 →
     Truck.yield_spot idx f
     = Ok (false, {| self := self f; parking_lot := parking_lot f;
                     stdout := stdout f ++ [Truck.msg_invalid_index idx] |})).
Proof.
  split; intros Hidx.
  - by apply Car_yield_spot_invalid.
  - by apply Truck_yield_spot_invalid.
Qed.

Lemma yield_spot_range_check_first_witness :
  (999 < 0 ∨ 999 >= capacity (parking_lot parked_car))
  ∧ Car.yield_spot 999 parked_car
    = Ok (false, {| self := self parked_car; parking_lot := parking_lot parked_car;
                    stdout := stdout parked_car ++ ["Invalid spot index: 999"] |})
  ∧ (4 < 0 ∨ 4 >= capacity (parking_lot new_truck) - 1)
  ∧ Truck.yield_spot 4 new_truck
    = Ok (false, {| self := self new_truck; parking_lot := parking_lot new_truck;
                    stdout := stdout new_truck ++ ["Invalid spot index: 4"] |}).
Proof.
  split; [right; simpl; lia|]. split.
  - apply (proj1 (yield_spot_range_check_first parked_car 999)).
    right. simpl. lia.
  - split; [right; simpl; lia|].
    apply (proj2 (yield_spot_range_check_first new_truck 4)).
    right. simpl. lia.
Defined.

(** C6. A vehicle that holds a spot and calls [request_spot] again gets
    [None] and the line "... already parked ..."; its [spot_index] and the
    lot's [spots] are unchanged. *)
Theorem request_spot_when_parked (f : Frame) (s : Z) :
  spot_index (self f) = Some s →
  Car.request_spot f
  = Ok (None, {| self := self f; parking_lot := parking_lot f;
                 stdout := stdout f ++ [Car.msg_already_parked s] |})
  ∧ Truck.request_spot f
    = Ok (None, {| self := self f; parking_lot := parking_lot f;
                   stdout := stdout f ++ [Truck.msg_already_parked s] |}).
Proof.
  intros Hs. unfold Car.request_spot, Truck.request_spot. unfold_M.
  rewrite Hs. split; reflexivity.
Qed.

Lemma request_spot_when_parked_witness :
  spot_index (self parked_car) = Some 0
  ∧ Car.request_spot parked_car
    = Ok (None, {| self := self parked_car; parking_lot := parking_lot parked_car;
                   stdout := ["Car already parked at spot 0"] |})
  ∧ Truck.request_spot parked_truck
    = Ok (None, {| self := self parked_truck; parking_lot := parking_lot parked_truck;
                   stdout := ["Truck already parked at spots 0-1"] |}).
Proof.
  split; [reflexivity|]. split.
  - apply (proj1 (request_spot_when_parked parked_car 0 eq_refl)).
  - apply (proj2 (request_spot_when_parked parked_truck 0 eq_refl)).
Defined.

(** C5. [Truck.yield_spot] answers "Invalid spot index" exactly when the
    index is below 0 or above [capacity - 2]; on a lot of capacity 5 the
    index 4 is refused in this way. *)
Theorem truck_yield_spot_valid_range :
  (∀ (f : Frame) (idx : Z),
     idx < 0 ∨ idx > capacity (parking_lot f) - 2
     ↔ Truck.yield_spot idx f
       = Ok (false, {| self := self f; parking_lot := parking_lot f;
                       stdout := stdout f ++ [Truck.msg_invalid_index idx] |}))
  ∧ capacity (parking_lot parked_truck) = 5
  ∧ Truck.yield_spot 4 parked_truck
    = Ok (false, {| self := self parked_truck;
                    parking_lot := parking_lot parked_truck;
                    stdout := ["Invalid spot index: 4"] |}).
Proof.
  split; [|split; reflexivity].
  intros f idx. split.
  - intros Hidx. apply Truck_yield_spot_invalid. lia.
  - intros Hrun.
    destruct (decide (idx < 0 ∨ idx > capacity (parking_lot f) - 2))
      as [|Hin]; [done|exfalso].
    revert Hrun. unfold Truck.yield_spot. unfold_M.
    rewrite (bool_decide_eq_false_2 (idx < 0)) by lia.
    rewrite (bool_decide_eq_false_2 (idx >= _)) by lia. cbn.
    destruct (spot_index (self f)) as [s|].
    + case_bool_decide.
      * intros [= Hout%app_inv_head]. discriminate Hout.
      * unfold set_spot. cbn.
        destruct (setitem (spots (parking_lot f)) idx false) as [l1|]; [|done].
        cbn. destruct (setitem l1 (idx + 1) false); done.
    + intros [= Hout%app_inv_head]. discriminate Hout.
Qed.

Lemma truck_yield_spot_valid_range_witness :
  (4 < 0 ∨ 4 > capacity (parking_lot new_truck) - 2)
  ∧ Truck.yield_spot 4 new_truck
    = Ok (false, {| self := self new_truck; parking_lot := parking_lot new_truck;
                    stdout := stdout new_truck ++ [Truck.msg_invalid_index 4] |}).
Proof.
  split; [right; simpl; lia|].
  apply (proj1 (proj1 truck_yield_spot_valid_range new_truck 4)).
  right. simpl. lia.
Defined.

(** C7, as the code has it. A vehicle that holds nothing and calls
    [yield_spot] gets [False], and neither the lot nor the vehicle changes;
    the line printed is "... is not parked" when the index is in the valid
    range of the kind, and "Invalid spot index: ..." when it is not. *)
Theorem yield_spot_when_not_parked (f : Frame) (idx : Z) :
  spot_index (self f) = None →
  Car.yield_spot idx f
  = Ok (false,
        {| self := self f; parking_lot := parking_lot f;
           stdout := stdout f ++
             [ if bool_decide (0 ≤ idx < capacity (parking_lot f))
               then Car.msg_not_parked else Car.msg_invalid_index idx ] |})
  ∧ Truck.yield_spot idx f
    = Ok (false,
          {| self := self f; parking_lot := parking_lot f;
             stdout := stdout f ++
               [ if bool_decide (0 ≤ idx < capacity (parking_lot f) - 1)
                 then Truck.msg_not_parked else Truck.msg_invalid_index idx ] |}).
Proof.
  intros Hs. split.
  - case_bool_decide as Hidx.
    + unfold Car.yield_spot. unfold_M.
      rewrite (bool_decide_eq_false_2 (idx < 0)) by lia.
      rewrite (bool_decide_eq_false_2 (idx >= _)) by lia.
      cbn. rewrite Hs. reflexivity.
    + apply Car_yield_spot_invalid. lia.
  - case_bool_decide as Hidx.
    + unfold Truck.yield_spot. unfold_M.
      rewrite (bool_decide_eq_false_2 (idx < 0)) by lia.
      rewrite (bool_decide_eq_false_2 (idx >= _)) by lia.
      cbn. rewrite Hs. reflexivity.
    + apply Truck_yield_spot_invalid. lia.
Qed.

Lemma yield_spot_when_not_parked_witness :
  spot_index (self new_car) = None
  ∧ Car.yield_spot 2 new_car
    = Ok (false, {| self := self new_car; parking_lot := parking_lot new_car;
                    stdout := ["Car is not parked"] |})
  ∧ Truck.yield_spot 4 new_car
    = Ok (false, {| self := self new_car; parking_lot := parking_lot new_car;
                    stdout := ["Invalid spot index: 4"] |}).
Proof.
  split; [reflexivity|]. split.
  - apply (proj1 (yield_spot_when_not_parked new_car 2 eq_refl)).
  - apply (proj2 (yield_spot_when_not_parked new_car 4 eq_refl)).
Defined.

(** C7, as stated, fails: a car just created holds nothing, and
    [yield_spot(999)] on a lot of capacity 5 reports "Invalid spot index: 999",
    not "Car is not parked". *)
Lemma yield_spot_unparked_reports_invalid_index :
  spot_index (self new_car) = None
  ∧ Car.yield_spot 999 new_car
    = Ok (false, printed "Invalid spot index: 999" new_car)
  ∧ Car.yield_spot 999 new_car ≠ Ok (false, printed "Car is not parked" new_car).
Proof. split; [reflexivity|]. split; [reflexivity|]. discriminate. Qed.

(** C10. When [Truck.request_spot] returns an index [i], then
    [0 <= i <= capacity - 2], the spots [i] and [i+1] were free before the call
    and are occupied after it, both lie inside the list, no other spot
    changed, and the truck's [spot_index] is [i]. *)
Theorem truck_request_spot_commit (f f' : Frame) (i : Z) :
  Truck.request_spot f = Ok (Some i, f') →
  0 ≤ i ≤ capacity (parking_lot f) - 2
  ∧ i + 1 < Z.of_nat (length (spots (parking_lot f)))
  ∧ getitem (spots (parking_lot f)) i = Ok false
  ∧ getitem (spots (parking_lot f)) (i + 1) = Ok false
  ∧ getitem (spots (parking_lot f')) i = Ok true
  ∧ getitem (spots (parking_lot f')) (i + 1) = Ok true
  ∧ spots (parking_lot f')
    = <[Z.to_nat (i + 1) := true]> (<[Z.to_nat i := true]> (spots (parking_lot f)))
  ∧ spot_index (self f') = Some i.
Proof.
  unfold Truck.request_spot. unfold_M.
  destruct (spot_index (self f)) as [s|]; [done|].
  destruct (_find_adjacent_spots (parking_lot f)) as [[idx|]|e] eqn:Hfind;
    [|done|done].
  apply find_adjacent_loop_sound in Hfind as (Hidx & H1 & H2 & _).
  pose proof H1 as Hin%getitem_Ok%lookup_lt_Some; [|lia].
  pose proof H2 as Hin'%getitem_Ok%lookup_lt_Some; [|lia].
  unfold set_spot. cbn. rewrite setitem_nonneg by lia. cbn.
  rewrite setitem_nonneg by (rewrite length_insert; lia). cbn.
  intros [= <- <-]. cbn.
  split; [lia|]. split; [lia|]. split; [done|]. split; [done|].
  split; [|split; [|done]].
  - apply getitem_Ok; [lia|]. rewrite list_lookup_insert_ne by lia.
    by apply list_lookup_insert_eq.
  - apply getitem_Ok; [lia|]. apply list_lookup_insert_eq.
    by rewrite length_insert.
Qed.

Lemma truck_request_spot_commit_witness :
  Truck.request_spot new_truck = Ok (Some 0, parked_truck)
  ∧ 0 ≤ 0 ≤ capacity (parking_lot new_truck) - 2
  ∧ 0 + 1 < Z.of_nat (length (spots (parking_lot new_truck)))
  ∧ getitem (spots (parking_lot new_truck)) 0 = Ok false
  ∧ getitem (spots (parking_lot new_truck)) (0 + 1) = Ok false
  ∧ getitem (spots (parking_lot parked_truck)) 0 = Ok true
  ∧ getitem (spots (parking_lot parked_truck)) (0 + 1) = Ok true
  ∧ spots (parking_lot parked_truck)
    = <[Z.to_nat (0 + 1) := true]>
        (<[Z.to_nat 0 := true]> (spots (parking_lot new_truck)))
  ∧ spot_index (self parked_truck) = Some 0.
Proof.
  split; [reflexivity|].
  apply (truck_request_spot_commit new_truck parked_truck 0). reflexivity.
Defined.

Lemma sum_count (l : list bool) :
  sum l = Z.of_nat (length (filter Is_true l)).
Proof.
  induction l as [|[] l IH]; [done| |].
  - rewrite filter_cons_True by done.
    change (sum (true :: l)) with (1 + sum l). rewrite length_cons. lia.
  - rewrite filter_cons_False by (by intros []).
    change (sum (false :: l)) with (0 + sum l). lia.
Qed.

(** C1. Starting from a fresh lot of any capacity, any sequence of
    [create_car], [create_truck], [request_spot] and [yield_spot] calls on
    vehicles of that lot runs to its end without raising, and in the state it
    reaches the number of [True] entries of [spots] (which is the ['occupied']
    count of [get_availability]) equals 1 for each parked car plus 2 for each
    parked truck, and the spots held by two different vehicles ([i] for a car
    at [i]; [i] and [i+1] for a truck at [i]) are disjoint. Every prefix of
    such a sequence is such a sequence, so this holds in every state on the
    way. *)
Theorem occupancy_conserved_and_disjoint (capacity : Z) (calls : list Call) :
  well_scoped 0 calls = true →
  ∃ w, run calls (fresh capacity) = Ok w
       ∧ Z.of_nat (length (filter Is_true (spots (lot w))))
         = total_held (vehicles w)
       ∧ Avail.occupied (get_availability (lot w)) = total_held (vehicles w)
       ∧ no_overlap (vehicles w).
Proof.
  intros Hscoped.
  destruct (run_total calls (fresh capacity) (inv_fresh capacity) Hscoped)
    as [w Hrun].
  exists w. split; [done|].
  destruct (run_inv _ _ _ (inv_fresh capacity) Hrun) as [_ _ Hdis Hcons].
  simpl. rewrite <- sum_count. done.
Qed.

Lemma occupancy_conserved_and_disjoint_witness :
  well_scoped 0 mixed_calls = true
  ∧ ∃ w, run mixed_calls (fresh 5) = Ok w
         ∧ Z.of_nat (length (filter Is_true (spots (lot w))))
           = total_held (vehicles w)
         ∧ Avail.occupied (get_availability (lot w)) = total_held (vehicles w)
         ∧ no_overlap (vehicles w).
Proof.
  split; [reflexivity|].
  apply (occupancy_conserved_and_disjoint 5 mixed_calls). reflexivity.
Defined.

(** The state [mixed_calls] reaches, with both sides of the count. *)
Example mixed_run :
  run mixed_calls (fresh 5) = Ok mixed
  ∧ Avail.occupied (get_availability (lot mixed)) = 3
  ∧ total_held (vehicles mixed) = 3.
Proof. by vm_compute. Qed.

(** C8. On a lot built with capacity 0 or 1, after any sequence of calls,
    every truck is unparked and its [request_spot] returns [None] without
    raising, printing or changing anything. *)
Theorem truck_request_spot_tiny_lot
    (capacity : Z) (calls : list Call) (w : World) (r : nat) (v : Vehicle) :
  capacity = 0 ∨ capacity = 1 →
  run calls (fresh capacity) = Ok w →
  vehicles w !! r = Some v → vehicle_type v = TRUCK →
  invoke r request_spot w = Ok (None, w).
Proof.
  intros Hcap Hrun Hr Ht.
  pose proof (run_inv _ _ _ (inv_fresh capacity) Hrun) as Hinv.
  pose proof (run_capacity _ _ _ (inv_fresh capacity) Hrun) as Hc. simpl in Hc.
  pose proof (inv_wf _ Hinv) as Hwf. unfold lot_wf in Hwf.
  assert (Hs : spot_index v = None).
  { destruct (spot_index v) as [i|] eqn:Hs; [exfalso|done].
    destruct (inv_owned _ Hinv r v (i + 1) Hr) as [_ Hocc].
    - unfold held_spots. rewrite Hs, Ht.
      apply list_elem_of_further, list_elem_of_here.
    - destruct (inv_owned _ Hinv r v i Hr) as [Hi _].
      + unfold held_spots. rewrite Hs, Ht. apply list_elem_of_here.
      + apply lookup_lt_Some in Hocc. lia. }
  unfold invoke. rewrite Hr.
  rewrite request_spot_full; simpl.
  - rewrite list_insert_id by done. by destruct w.
  - done.
  - rewrite Ht. simpl. unfold _find_adjacent_spots, range.
    by rewrite seqZ_nil by lia.
Qed.

Lemma truck_request_spot_tiny_lot_witness :
  (1 = 0 ∨ 1 = 1)
  ∧ run tiny_calls (fresh 1) = Ok tiny
  ∧ vehicles tiny !! 0%nat = Some (truck_at None)
  ∧ vehicle_type (truck_at None) = TRUCK
  ∧ invoke 0 request_spot tiny = Ok (None, tiny).
Proof.
  split; [right; reflexivity|]. split; [by vm_compute|].
  split; [reflexivity|]. split; [reflexivity|].
  apply (truck_request_spot_tiny_lot 1 tiny_calls tiny 0 (truck_at None));
    [right; reflexivity|by vm_compute|reflexivity|reflexivity].
Defined.

(** C2, as the code has it. On a lot with one entry per spot no call raises.
    [request_spot] returns the committed index when it succeeds and [None]
    when it fails, whether the vehicle is already parked (one line printed) or
    the search finds nothing (no line printed). [yield_spot] returns [True]
    when it succeeds and [False] when it fails, whether the index is out of
    range, the vehicle is not parked or it is parked elsewhere; each of these
    three prints a line of its own. *)
Theorem outcome_by_returned_value (f : Frame) (idx : Z) :
  lot_wf (parking_lot f) →
  let t := vehicle_type (self f) in
  let l := parking_lot f in
  (∃ r f', request_spot f = Ok (r, f')
     ∧ match r with
       | Some i =>
           spot_index (self f) = None ∧ find_for t l = Ok (Some i)
           ∧ f' = moved (Some i) (set_all (spots l) (footprint t i) true) f
       | None =>
           (∃ s, spot_index (self f) = Some s
                 ∧ f' = printed (msg_already_parked t s) f)
           ∨ (spot_index (self f) = None ∧ find_for t l = Ok None ∧ f' = f)
       end)
  ∧ (∃ b f', yield_spot idx f = Ok (b, f')
       ∧ if b then
           0 ≤ idx < index_bound t l ∧ spot_index (self f) = Some idx
           ∧ f' = moved None (set_all (spots l) (footprint t idx) false) f
         else
           ((idx < 0 ∨ idx >= index_bound t l)
            ∧ f' = printed (msg_invalid_index t idx) f)
           ∨ (0 ≤ idx < index_bound t l ∧ spot_index (self f) = None
              ∧ f' = printed (msg_not_parked t) f)
           ∨ (∃ s, 0 ≤ idx < index_bound t l ∧ spot_index (self f) = Some s
                   ∧ s ≠ idx ∧ f' = printed (msg_parked_elsewhere t s idx) f))
  ∧ (∀ s, msg_invalid_index t idx ≠ msg_not_parked t
          ∧ msg_invalid_index t idx ≠ msg_parked_elsewhere t s idx
          ∧ msg_not_parked t ≠ msg_parked_elsewhere t s idx).
Proof.
  intros Hwf t l. split; [|split].
  - destruct (request_spot_cases f Hwf)
      as [(s & Hs & ->)|[(Hs & Hfind & ->)|(i & Hs & Hfind & ->)]].
    + exists None, (printed (msg_already_parked t s) f).
      split; [done|]. left. by exists s.
    + exists None, f. split; [done|]. by right.
    + by eexists (Some i), _.
  - destruct (yield_spot_cases f idx Hwf)
      as [(Hidx & ->)|[(Hidx & Hs & ->)|[(s & Hidx & Hs & Hne & ->)
         |(Hidx & Hs & ->)]]].
    + eexists false, _. split; [done|]. by left.
    + eexists false, _. split; [done|]. right. by left.
    + eexists false, _. split; [done|]. right. right. by exists s.
    + by eexists true, _.
  - intros s. destruct t; simpl; split_and!; discriminate.
Qed.

Lemma outcome_by_returned_value_witness :
  lot_wf (parking_lot parked_car)
  ∧ (∃ r f', request_spot parked_car = Ok (r, f')
       ∧ match r with
         | Some i =>
             spot_index (self parked_car) = None
             ∧ find_for CAR (parking_lot parked_car) = Ok (Some i)
             ∧ f' = moved (Some i)
                      (set_all (spots (parking_lot parked_car))
                         (footprint CAR i) true) parked_car
         | None =>
             (∃ s, spot_index (self parked_car) = Some s
                   ∧ f' = printed (msg_already_parked CAR s) parked_car)
             ∨ (spot_index (self parked_car) = None
                ∧ find_for CAR (parking_lot parked_car) = Ok None
                ∧ f' = parked_car)
         end).
Proof.
  split; [reflexivity|].
  apply (outcome_by_returned_value parked_car 0). reflexivity.
Defined.

(** C2, as stated, fails. On the full lot of capacity 2 (cars 0 and 1 parked,
    car 2 not), [request_spot] returns the same [None] to car 0, which is
    already parked, and to car 2, for which there is no spot; [yield_spot]
    returns the same [False] for an index out of range, for a car that is not
    parked and for a car parked elsewhere. *)
Lemma failures_share_returned_value :
  run full_calls (fresh 2) = Ok full
  ∧ invoke 0 request_spot full
    = Ok (None, logged "Car already parked at spot 0" full)
  ∧ invoke 2 request_spot full = Ok (None, full)
  ∧ invoke 0 (yield_spot 999) full
    = Ok (false, logged "Invalid spot index: 999" full)
  ∧ invoke 2 (yield_spot 0) full = Ok (false, logged "Car is not parked" full)
  ∧ invoke 0 (yield_spot 1) full
    = Ok (false, logged "Car is parked at 0, not 1" full).
Proof. by vm_compute. Qed.

(** * Further properties of the module *)

(** ** Counting free and occupied spots *)

Lemma sum_bounds (l : list bool) : 0 ≤ sum l ≤ Z.of_nat (length l).
Proof.
  induction l as [|[] l IH]; simpl; unfold sum in *; simpl; lia.
Qed.

Lemma sum_lt_length_free (l : list bool) :
  sum l < Z.of_nat (length l) ↔ ∃ k : nat, l !! k = Some false.
Proof.
  induction l as [|b l IH].
  - split; [simpl; lia|]. intros [k Hk]. by rewrite lookup_nil in Hk.
  - change (sum (b :: l)) with (int_of_bool b + sum l). rewrite length_cons.
    pose proof (sum_bounds l) as Hb. split.
    + intros Hlt. destruct b; simpl in Hlt.
      * destruct (proj1 IH) as [k Hk]; [lia|]. by exists (S k).
      * by exists 0%nat.
    + intros [[|k] Hk]; simpl in Hk.
      * injection Hk as ->. simpl. lia.
      * assert (sum l < Z.of_nat (length l)) by (apply IH; eauto).
        destruct b; simpl; lia.
Qed.

Lemma sum_zero_all_free (l : list bool) (k : nat) :
  sum l = 0 → (k < length l)%nat → l !! k = Some false.
Proof.
  revert k. induction l as [|b l IH]; intros k Hsum Hk; simpl in Hk; [lia|].
  change (sum (b :: l)) with (int_of_bool b + sum l) in Hsum.
  pose proof (sum_bounds l) as Hb.
  destruct b; simpl in Hsum; [lia|].
  destruct k as [|k]; [done|]. simpl. apply IH; lia.
Qed.

Lemma sum_filled (l : list bool) (k : Z) :
  0 ≤ k ≤ Z.of_nat (length l) →
  (∀ j, 0 ≤ j < k → l !! Z.to_nat j = Some true) →
  (∀ j, k ≤ j < Z.of_nat (length l) → l !! Z.to_nat j = Some false) →
  sum l = k.
Proof.
  revert k. induction l as [|b l IH]; intros k Hk Htrue Hfalse.
  - simpl in *. lia.
  - change (sum (b :: l)) with (int_of_bool b + sum l).
    rewrite length_cons in *.
    destruct (decide (k = 0)) as [->|Hne].
    + assert (b = false) as ->.
      { specialize (Hfalse 0). simpl in Hfalse.
        assert (Some b = Some false) by (apply Hfalse; lia). congruence. }
      rewrite (IH 0); [done|lia|intros j Hj; lia|].
      intros j Hj. specialize (Hfalse (j + 1)).
      replace (Z.to_nat (j + 1)) with (S (Z.to_nat j)) in Hfalse by lia.
      apply Hfalse. lia.
    + assert (b = true) as ->.
      { specialize (Htrue 0). simpl in Htrue.
        assert (Some b = Some true) by (apply Htrue; lia). congruence. }
      rewrite (IH (k - 1)); [simpl; lia|lia| |].
      * intros j Hj. specialize (Htrue (j + 1)).
        replace (Z.to_nat (j + 1)) with (S (Z.to_nat j)) in Htrue by lia.
        apply Htrue. lia.
      * intros j Hj. specialize (Hfalse (j + 1)).
        replace (Z.to_nat (j + 1)) with (S (Z.to_nat j)) in Hfalse by lia.
        apply Hfalse. lia.
Qed.

Lemma total_held_unparked (vs : list Vehicle) :
  (∀ r v, vs !! r = Some v → spot_index v = None) → total_held vs = 0.
Proof.
  induction vs as [|v vs IH]; intros Hall; [done|].
  change (total_held (v :: vs)) with (spots_held v + total_held vs).
  rewrite IH.
  - unfold spots_held. by rewrite (Hall 0%nat v eq_refl).
  - intros r v' Hr. by apply (Hall (S r)).
Qed.

(** ** First fit finds a placement at or before any free one *)

Lemma find_for_least t l r i :
  find_for t l = Ok r →
  0 ≤ i < index_bound t l →
  (∀ j, j ∈ footprint t i → getitem (spots l) j = Ok false) →
  ∃ j, r = Some j ∧ 0 ≤ j ≤ i
       ∧ ∀ j', 0 ≤ j' < j →
           ∃ j'', j'' ∈ footprint t j' ∧ getitem (spots l) j'' = Ok true.
Proof.
  destruct t; simpl; intros Hr Hi Hfree.
  - apply find_single_loop_sound in Hr.
    assert (Hi0 : getitem (spots l) i = Ok false)
      by apply Hfree, list_elem_of_here.
    destruct r as [j|].
    + destruct Hr as (Hj & _ & Hbefore). exists j. split; [done|]. split.
      * destruct (decide (j ≤ i)); [lia|].
        rewrite Hbefore in Hi0 by lia. done.
      * intros j' Hj'. exists j'. split; [apply list_elem_of_here|].
        apply Hbefore. lia.
    + rewrite Hr in Hi0 by lia. done.
  - apply find_adjacent_loop_sound in Hr.
    assert (Hi0 : getitem (spots l) i = Ok false)
      by apply Hfree, list_elem_of_here.
    assert (Hi1 : getitem (spots l) (i + 1) = Ok false)
      by apply Hfree, list_elem_of_further, list_elem_of_here.
    destruct r as [j|].
    + destruct Hr as (Hj & _ & _ & Hbefore). exists j. split; [done|]. split.
      * destruct (decide (j ≤ i)); [lia|].
        destruct (Hbefore i) as [Hocc|Hocc]; [lia| |]; congruence.
      * intros j' Hj'. destruct (Hbefore j') as [Hocc|Hocc]; [lia| |].
        -- exists j'. split; [apply list_elem_of_here|done].
        -- exists (j' + 1).
           split; [apply list_elem_of_further, list_elem_of_here|done].
    + destruct (Hr i) as [Hocc|Hocc]; [lia| |]; congruence.
Qed.

Lemma set_all_restore (l : list bool) (js : list Z) (b : bool) :
  (∀ j, j ∈ js → l !! Z.to_nat j = Some b) →
  set_all (set_all l js (negb b)) js b = l.
Proof.
  intros Hold. apply list_eq. intros k.
  destruct (decide (k ∈ (Z.to_nat <$> js))) as [Hin|Hout].
  - apply list_elem_of_fmap in Hin as (j & -> & Hj).
    rewrite set_all_lookup_in; [by rewrite Hold|done|].
    rewrite set_all_length. eapply lookup_lt_Some, Hold, Hj.
  - rewrite !set_all_lookup_other; [done| |].
    + intros j Hj Heq. apply Hout, list_elem_of_fmap. eauto.
    + intros j Hj Heq. apply Hout, list_elem_of_fmap. eauto.
Qed.

Lemma footprint_start t i : i ∈ footprint t i.
Proof. destruct t; apply list_elem_of_here. Qed.

Lemma footprint_bound t l i j :
  0 ≤ i < index_bound t l → j ∈ footprint t i → 0 ≤ j < capacity l.
Proof.
  intros Hi Hj. destruct t; simpl in *.
  - apply list_elem_of_singleton in Hj. lia.
  - apply elem_of_cons in Hj as [->|Hj]; [lia|].
    apply list_elem_of_singleton in Hj. lia.
Qed.

Lemma setitem_Ok_nonneg {A} (l l' : list A) (i : Z) (x : A) :
  0 ≤ i → setitem l i x = Ok l' →
  l' = <[Z.to_nat i := x]> l ∧ (Z.to_nat i < length l)%nat.
Proof.
  intros Hi. unfold setitem, norm_index. cbv zeta.
  rewrite (bool_decide_eq_false_2 (i < 0)) by lia.
  case_bool_decide as Hr; [|done]. intros [= <-]. split; [done|lia].
Qed.

Lemma moved_id (f : Frame) :
  moved (spot_index (self f)) (spots (parking_lot f)) f = f.
Proof. by destruct f as [[] [] ?]. Qed.

(** ** Request and yield as a pair *)

(** X1. A successful [request_spot] followed by [yield_spot] with the index it
    returned succeeds and puts the vehicle, the lot and the output back
    exactly as they were. *)
Theorem request_then_yield_restores (f f' : Frame) (i : Z) :
  lot_wf (parking_lot f) →
  request_spot f = Ok (Some i, f') →
  yield_spot i f' = Ok (true, f).
Proof.
  intros Hwf Hreq.
  destruct (request_spot_cases f Hwf)
    as [(s & _ & Heq)|[(_ & _ & Heq)|(idx & Hs & Hfind & Heq)]];
    rewrite Heq in Hreq; [done|done|].
  injection Hreq as -> <-.
  pose proof (find_for_sound _ _ _ Hfind) as [Hidx Hfree].
  rewrite yield_spot_release; simpl.
  - f_equal. f_equal.
    rewrite (set_all_restore _ _ false).
    + unfold moved. simpl. rewrite <- Hs. exact (moved_id f).
    + intros j Hj. apply getitem_Ok; [|by apply Hfree].
      eapply footprint_nonneg; [|done]. lia.
  - unfold lot_wf in *. simpl. by rewrite set_all_length.
  - done.
  - done.
Qed.

Lemma request_then_yield_restores_witness :
  lot_wf (parking_lot new_truck)
  ∧ request_spot new_truck = Ok (Some 0, parked_truck)
  ∧ yield_spot 0 parked_truck = Ok (true, new_truck).
Proof.
  split; [reflexivity|]. split; [reflexivity|].
  apply (request_then_yield_restores new_truck parked_truck 0); reflexivity.
Defined.

(** X2. After a successful [yield_spot(idx)] the same vehicle can park again at
    once, and first fit gives it an index that is not after the one it left
    (it may be before, when an earlier place has become free meanwhile). *)
Theorem yield_then_request_not_later (f f' : Frame) (idx : Z) :
  lot_wf (parking_lot f) →
  yield_spot idx f = Ok (true, f') →
  ∃ j f'', request_spot f' = Ok (Some j, f'') ∧ 0 ≤ j ≤ idx.
Proof.
  intros Hwf Hyield.
  destruct (yield_spot_cases f idx Hwf)
    as [(_ & Heq)|[(_ & _ & Heq)|[(s & _ & _ & _ & Heq)|(Hidx & Hs & Heq)]]];
    rewrite Heq in Hyield; [done|done|done|].
  injection Hyield as <-.
  set (t := vehicle_type (self f)) in *.
  set (l' := {| capacity := capacity (parking_lot f);
                spots := set_all (spots (parking_lot f)) (footprint t idx) false |}).
  assert (Hwf' : lot_wf l').
  { unfold lot_wf in *. simpl. by rewrite set_all_length. }
  destruct (find_for_total t l' Hwf') as [r Hr].
  destruct (find_for_least t l' r idx Hr) as (j & -> & Hj & _); [done| |].
  { intros j Hj. pose proof (footprint_bound _ _ _ _ Hidx Hj) as Hjb.
    apply getitem_Ok; [lia|]. simpl.
    apply set_all_lookup_in; [done|]. unfold lot_wf in Hwf. lia. }
  exists j. eexists. split; [|done].
  by apply request_spot_commit.
Qed.

Lemma yield_then_request_not_later_witness :
  lot_wf (parking_lot parked_car)
  ∧ yield_spot 0 parked_car = Ok (true, new_car)
  ∧ ∃ j f'', request_spot new_car = Ok (Some j, f'') ∧ 0 ≤ j ≤ 0.
Proof.
  split; [reflexivity|]. split; [reflexivity|].
  apply (yield_then_request_not_later parked_car new_car 0); reflexivity.
Defined.

(** ** What a successful call did *)

(** X3. When [Car.request_spot] returns an index [i], then [0 <= i < capacity],
    spot [i] was free and every spot before it occupied (first fit), [spots]
    changes at position [i] only, the car's [spot_index] is [i] and nothing
    is printed. *)
Theorem car_request_spot_commit (f f' : Frame) (i : Z) :
  Car.request_spot f = Ok (Some i, f') →
  0 ≤ i < capacity (parking_lot f)
  ∧ i < Z.of_nat (length (spots (parking_lot f)))
  ∧ getitem (spots (parking_lot f)) i = Ok false
  ∧ (∀ j, 0 ≤ j < i → getitem (spots (parking_lot f)) j = Ok true)
  ∧ spots (parking_lot f') = <[Z.to_nat i := true]> (spots (parking_lot f))
  ∧ capacity (parking_lot f') = capacity (parking_lot f)
  ∧ spot_index (self f') = Some i
  ∧ stdout f' = stdout f.
Proof.
  unfold Car.request_spot. unfold_M.
  destruct (spot_index (self f)) as [s|]; [done|].
  destruct (_find_single_spot (parking_lot f)) as [[idx|]|e] eqn:Hfind;
    [|done|done].
  apply find_single_loop_sound in Hfind as (Hidx & H1 & Hbefore).
  pose proof H1 as Hin%getitem_Ok%lookup_lt_Some; [|lia].
  unfold set_spot. cbn. rewrite setitem_nonneg by lia. cbn.
  intros [= <- <-]. cbn.
  split; [lia|]. split; [lia|]. split; [done|]. split; [|done].
  intros j Hj. apply Hbefore. lia.
Qed.

Lemma car_request_spot_commit_witness :
  Car.request_spot new_car = Ok (Some 0, parked_car)
  ∧ 0 ≤ 0 < capacity (parking_lot new_car)
  ∧ 0 < Z.of_nat (length (spots (parking_lot new_car)))
  ∧ getitem (spots (parking_lot new_car)) 0 = Ok false
  ∧ (∀ j, 0 ≤ j < 0 → getitem (spots (parking_lot new_car)) j = Ok true)
  ∧ spots (parking_lot parked_car)
    = <[Z.to_nat 0 := true]> (spots (parking_lot new_car))
  ∧ capacity (parking_lot parked_car) = capacity (parking_lot new_car)
  ∧ spot_index (self parked_car) = Some 0
  ∧ stdout parked_car = stdout new_car.
Proof.
  split; [reflexivity|].
  apply (car_request_spot_commit new_car parked_car 0). reflexivity.
Defined.

(** X4. [yield_spot(idx)] returns [True] only to a vehicle whose [spot_index] is
    exactly [idx], with [idx] in the valid range of its kind; it then clears
    the spots of that reservation and no other entry ([idx] for a car, [idx]
    and [idx + 1] for a truck), resets [spot_index] and prints nothing. *)
Theorem yield_spot_release_only_own (f f' : Frame) (idx : Z) :
  yield_spot idx f = Ok (true, f') →
  let t := vehicle_type (self f) in
  spot_index (self f) = Some idx
  ∧ 0 ≤ idx < index_bound t (parking_lot f)
  ∧ spots (parking_lot f')
    = match t with
      | CAR => <[Z.to_nat idx := false]> (spots (parking_lot f))
      | TRUCK => <[Z.to_nat (idx + 1) := false]>
                   (<[Z.to_nat idx := false]> (spots (parking_lot f)))
      end
  ∧ (∀ j, j ∈ footprint t idx → getitem (spots (parking_lot f')) j = Ok false)
  ∧ capacity (parking_lot f') = capacity (parking_lot f)
  ∧ self f' = {| vehicle_type := t; spot_index := None |}
  ∧ stdout f' = stdout f.
Proof.
  unfold yield_spot, Car.yield_spot, Truck.yield_spot.
  destruct (vehicle_type (self f)) eqn:Ht; unfold_M.
  - destruct (bool_decide (idx < 0)) eqn:H0; [done|].
    destruct (bool_decide (idx >= capacity (parking_lot f))) eqn:H1; [done|].
    apply bool_decide_eq_false in H0, H1. cbn.
    destruct (spot_index (self f)) as [s|]; [|done].
    case_bool_decide as Hne; [done|].
    assert (s = idx) as -> by (destruct (decide (s = idx)); [done|tauto]).
    unfold set_spot. cbn.
    destruct (setitem (spots (parking_lot f)) idx false) as [l1|] eqn:Hset;
      [|done].
    apply setitem_Ok_nonneg in Hset as [-> Hlen]; [|lia].
    cbn. intros [= <-]. cbn. rewrite Ht.
    split; [done|]. split; [lia|]. split; [done|]. split; [|done].
    intros j ->%list_elem_of_singleton.
    apply getitem_Ok; [lia|]. by apply list_lookup_insert_eq.
  - destruct (bool_decide (idx < 0)) eqn:H0; [done|].
    destruct (bool_decide (idx >= capacity (parking_lot f) - 1)) eqn:H1; [done|].
    apply bool_decide_eq_false in H0, H1. cbn.
    destruct (spot_index (self f)) as [s|]; [|done].
    case_bool_decide as Hne; [done|].
    assert (s = idx) as -> by (destruct (decide (s = idx)); [done|tauto]).
    unfold set_spot. cbn.
    destruct (setitem (spots (parking_lot f)) idx false) as [l1|] eqn:Hset;
      [|done].
    apply setitem_Ok_nonneg in Hset as [-> Hlen]; [|lia]. cbn.
    destruct (setitem _ (idx + 1) false) as [l2|] eqn:Hset'; [|done].
    apply setitem_Ok_nonneg in Hset' as [-> Hlen']; [|lia].
    cbn. intros [= <-]. cbn. rewrite Ht.
    split; [done|]. split; [lia|]. split; [done|]. split; [|done].
    intros j Hj. apply elem_of_cons in Hj as [->|Hj].
    + apply getitem_Ok; [lia|]. rewrite list_lookup_insert_ne by lia.
      by apply list_lookup_insert_eq.
    + apply list_elem_of_singleton in Hj as ->.
      apply getitem_Ok; [lia|]. by apply list_lookup_insert_eq.
Qed.

Lemma yield_spot_release_only_own_witness :
  yield_spot 0 parked_truck = Ok (true, new_truck)
  ∧ spot_index (self parked_truck) = Some 0
  ∧ 0 ≤ 0 < index_bound TRUCK (parking_lot parked_truck)
  ∧ spots (parking_lot new_truck)
    = <[Z.to_nat (0 + 1) := false]>
        (<[Z.to_nat 0 := false]> (spots (parking_lot parked_truck)))
  ∧ (∀ j, j ∈ footprint TRUCK 0 → getitem (spots (parking_lot new_truck)) j = Ok false)
  ∧ capacity (parking_lot new_truck) = capacity (parking_lot parked_truck)
  ∧ self new_truck = {| vehicle_type := TRUCK; spot_index := None |}
  ∧ stdout new_truck = stdout parked_truck.
Proof.
  split; [reflexivity|].
  apply (yield_spot_release_only_own parked_truck new_truck 0). reflexivity.
Defined.

(** ** Free spots and service *)

(** X5. An unparked car is given a spot exactly when [get_availability] reports
    at least one free spot: single spots are never lost to fragmentation. *)
Theorem car_served_iff_free (f : Frame) :
  lot_wf (parking_lot f) →
  vehicle_type (self f) = CAR →
  spot_index (self f) = None →
  (∃ i f', request_spot f = Ok (Some i, f'))
  ↔ 0 < Avail.free (get_availability (parking_lot f)).
Proof.
  intros Hwf Ht Hs. pose proof Hwf as Hlen. unfold lot_wf in Hlen.
  pose proof (sum_bounds (spots (parking_lot f))) as Hb. simpl. split.
  - intros (i & f' & Hreq).
    destruct (request_spot_cases f Hwf)
      as [(s & _ & Heq)|[(_ & _ & Heq)|(idx & _ & Hfind & Heq)]];
      rewrite Heq in Hreq; [done|done|].
    pose proof (find_for_sound _ _ _ Hfind) as [Hidx Hfree].
    rewrite Ht in Hidx, Hfree. simpl in Hidx.
    assert (sum (spots (parking_lot f)) < Z.of_nat (length (spots (parking_lot f)))).
    { apply sum_lt_length_free. exists (Z.to_nat idx).
      apply getitem_Ok; [lia|]. apply Hfree, list_elem_of_here. }
    lia.
  - intros Hfree.
    destruct (proj1 (sum_lt_length_free (spots (parking_lot f)))) as [k Hk];
      [lia|].
    pose proof (lookup_lt_Some _ _ _ Hk) as Hklen.
    destruct (find_for_total CAR _ Hwf) as [r Hr].
    destruct (find_for_least CAR _ r (Z.of_nat k) Hr) as (j & -> & _ & _).
    + simpl. lia.
    + intros j ->%list_elem_of_singleton.
      apply getitem_Ok; [lia|]. by rewrite Nat2Z.id.
    + exists j. eexists. apply request_spot_commit; [done|]. by rewrite Ht.
Qed.

Lemma car_served_iff_free_witness :
  lot_wf (parking_lot new_car)
  ∧ vehicle_type (self new_car) = CAR
  ∧ spot_index (self new_car) = None
  ∧ ((∃ i f', request_spot new_car = Ok (Some i, f'))
     ↔ 0 < Avail.free (get_availability (parking_lot new_car))).
Proof.
  split; [reflexivity|]. split; [reflexivity|]. split; [reflexivity|].
  apply (car_served_iff_free new_car); reflexivity.
Defined.

(** X6. A successful [request_spot] lowers the free count of [get_availability]
    by exactly the size of the vehicle (1 for a car, 2 for a truck), and the
    free count does not go below 0: a truck is served only when at least two
    spots are free. *)
Theorem request_spot_takes_its_size (f f' : Frame) (i : Z) :
  lot_wf (parking_lot f) →
  request_spot f = Ok (Some i, f') →
  Avail.free (get_availability (parking_lot f'))
  = Avail.free (get_availability (parking_lot f))
    - spots_needed (vehicle_type (self f))
  ∧ 0 ≤ Avail.free (get_availability (parking_lot f')).
Proof.
  intros Hwf Hreq. pose proof Hwf as Hlen. unfold lot_wf in Hlen.
  destruct (request_spot_cases f Hwf)
    as [(s & _ & Heq)|[(_ & _ & Heq)|(idx & _ & Hfind & Heq)]];
    rewrite Heq in Hreq; [done|done|].
  injection Hreq as -> <-.
  pose proof (find_for_sound _ _ _ Hfind) as [Hidx Hfree].
  assert (Hsum : sum (set_all (spots (parking_lot f))
                        (footprint (vehicle_type (self f)) i) true)
                 = sum (spots (parking_lot f))
                   + spots_needed (vehicle_type (self f))).
  { rewrite sum_set_all_footprint; [simpl; lia|lia|].
    intros j Hj. apply getitem_Ok; [|by apply Hfree].
    eapply footprint_nonneg; [|done]. lia. }
  pose proof (sum_bounds (set_all (spots (parking_lot f))
                (footprint (vehicle_type (self f)) i) true)) as Hb.
  rewrite set_all_length in Hb.
  simpl. rewrite Hsum in *.
  split; [lia|].
  destruct (vehicle_type (self f)); simpl in *; lia.
Qed.

Lemma request_spot_takes_its_size_witness :
  lot_wf (parking_lot new_truck)
  ∧ request_spot new_truck = Ok (Some 0, parked_truck)
  ∧ Avail.free (get_availability (parking_lot parked_truck))
    = Avail.free (get_availability (parking_lot new_truck))
      - spots_needed (vehicle_type (self new_truck))
  ∧ 0 ≤ Avail.free (get_availability (parking_lot parked_truck)).
Proof.
  split; [reflexivity|]. split; [reflexivity|].
  apply (request_spot_takes_its_size new_truck parked_truck 0); reflexivity.
Defined.

(** ** What holds in every state a driver can reach *)

Lemma count_X (l : list bool) :
  Z.of_nat (length (filter (λ s : string, s = "X")
                      ((λ spot : bool, if spot then "X" else "O") <$> l)))
  = sum l.
Proof.
  induction l as [|[] l IH]; [done| |]; rewrite fmap_cons.
  - rewrite filter_cons_True by done.
    change (sum (true :: l)) with (1 + sum l). rewrite length_cons. lia.
  - rewrite filter_cons_False by done.
    change (sum (false :: l)) with (0 + sum l). lia.
Qed.

Lemma count_O (l : list bool) :
  Z.of_nat (length (filter (λ s : string, s = "O")
                      ((λ spot : bool, if spot then "X" else "O") <$> l)))
  = Z.of_nat (length l) - sum l.
Proof.
  induction l as [|[] l IH]; [done| |]; rewrite fmap_cons.
  - rewrite filter_cons_False by done.
    change (sum (true :: l)) with (1 + sum l). rewrite length_cons. lia.
  - rewrite filter_cons_True by done.
    change (sum (false :: l)) with (0 + sum l). rewrite !length_cons. lia.
Qed.

(** X7. In every state reached from [ParkingLot(c)], [get_availability] reports
    total [c], as many occupied spots as there are ['X'] in its [spots]
    list, which has one symbol per spot; when [c >= 0] the free count is the
    number of ['O'] and lies between 0 and [c]; when [c < 0] the lot has no
    spot and the free count reported is the negative number [c]. *)
Theorem availability_consistent (c : Z) (calls : list Call) (w : World) :
  run calls (fresh c) = Ok w →
  let a := get_availability (lot w) in
  Avail.total a = c
  ∧ length (Avail.spots a) = Z.to_nat c
  ∧ Avail.occupied a
    = Z.of_nat (length (filter (λ s : string, s = "X") (Avail.spots a)))
  ∧ (0 ≤ c →
     Avail.free a
     = Z.of_nat (length (filter (λ s : string, s = "O") (Avail.spots a)))
     ∧ 0 ≤ Avail.free a ≤ c)
  ∧ (c < 0 → Avail.occupied a = 0 ∧ Avail.free a = c).
Proof.
  intros Hrun.
  pose proof (run_inv _ _ _ (inv_fresh c) Hrun) as Hinv.
  pose proof (run_capacity _ _ _ (inv_fresh c) Hrun) as Hc. simpl in Hc.
  pose proof (inv_wf _ Hinv) as Hwf. unfold lot_wf in Hwf.
  pose proof (sum_bounds (spots (lot w))) as Hb.
  simpl. rewrite count_X, count_O, length_fmap, Hc.
  split; [done|]. split; [lia|]. split; [done|]. split; lia.
Qed.

Lemma availability_consistent_witness :
  run mixed_calls (fresh 5) = Ok mixed
  ∧ Avail.total (get_availability (lot mixed)) = 5
  ∧ length (Avail.spots (get_availability (lot mixed))) = Z.to_nat 5
  ∧ Avail.occupied (get_availability (lot mixed))
    = Z.of_nat (length (filter (λ s : string, s = "X")
                          (Avail.spots (get_availability (lot mixed)))))
  ∧ (0 ≤ 5 →
     Avail.free (get_availability (lot mixed))
     = Z.of_nat (length (filter (λ s : string, s = "O")
                           (Avail.spots (get_availability (lot mixed)))))
     ∧ 0 ≤ Avail.free (get_availability (lot mixed)) ≤ 5)
  ∧ (5 < 0 → Avail.occupied (get_availability (lot mixed)) = 0
             ∧ Avail.free (get_availability (lot mixed)) = 5).
Proof.
  split; [by vm_compute|].
  apply (availability_consistent 5 mixed_calls mixed). by vm_compute.
Defined.

(** X8. In every reachable state a parked vehicle's [spot_index] is a valid
    start for its kind and the spots it stands on are marked occupied:
    [0 <= i < capacity] and [spots[i]] for a car, [0 <= i <= capacity - 2] and
    [spots[i]], [spots[i+1]] for a truck. *)
Theorem held_index_valid
    (c : Z) (calls : list Call) (w : World) (r : nat) (v : Vehicle) (i : Z) :
  run calls (fresh c) = Ok w →
  vehicles w !! r = Some v → spot_index v = Some i →
  match vehicle_type v with
  | CAR => 0 ≤ i < c ∧ getitem (spots (lot w)) i = Ok true
  | TRUCK => 0 ≤ i ≤ c - 2
             ∧ getitem (spots (lot w)) i = Ok true
             ∧ getitem (spots (lot w)) (i + 1) = Ok true
  end.
Proof.
  intros Hrun Hr Hs.
  pose proof (run_inv _ _ _ (inv_fresh c) Hrun) as Hinv.
  pose proof (run_capacity _ _ _ (inv_fresh c) Hrun) as Hc. simpl in Hc.
  pose proof (inv_wf _ Hinv) as Hwf. unfold lot_wf in Hwf.
  assert (Hown : ∀ j, j ∈ footprint (vehicle_type v) i →
            0 ≤ j < c ∧ getitem (spots (lot w)) j = Ok true).
  { intros j Hj. destruct (inv_owned _ Hinv r v j Hr) as [Hj0 Hocc].
    - unfold held_spots. by rewrite Hs.
    - pose proof (lookup_lt_Some _ _ _ Hocc). split; [lia|].
      by apply getitem_Ok. }
  destruct (vehicle_type v); simpl in Hown.
  - destruct (Hown i) as [? ?]; [apply list_elem_of_here|]. done.
  - destruct (Hown i) as [? ?]; [apply list_elem_of_here|].
    destruct (Hown (i + 1)) as [? ?];
      [apply list_elem_of_further, list_elem_of_here|].
    split; [lia|done].
Qed.

Lemma held_index_valid_witness :
  run busy_calls (fresh 5) = Ok busy
  ∧ vehicles busy !! 2%nat = Some (truck_at (Some 2))
  ∧ spot_index (truck_at (Some 2)) = Some 2
  ∧ 0 ≤ 2 ≤ 5 - 2
  ∧ getitem (spots (lot busy)) 2 = Ok true
  ∧ getitem (spots (lot busy)) (2 + 1) = Ok true.
Proof.
  split; [by vm_compute|]. split; [reflexivity|]. split; [reflexivity|].
  apply (held_index_valid 5 busy_calls busy 2 (truck_at (Some 2)) 2);
    [by vm_compute|reflexivity|reflexivity].
Defined.

(** X9. In every reachable state no vehicle can give up a spot another vehicle
    stands on: [yield_spot(j)] called on a vehicle other than the one holding
    spot [j] returns [False], prints one line and changes neither the lot nor
    any vehicle. *)
Theorem yield_spot_of_another_refused
    (c : Z) (calls : list Call) (w : World) (r r' : nat) (v v' : Vehicle) (j : Z) :
  run calls (fresh c) = Ok w →
  vehicles w !! r = Some v → vehicles w !! r' = Some v' → r ≠ r' →
  j ∈ held_spots v' →
  ∃ line, invoke r (yield_spot j) w = Ok (false, logged line w).
Proof.
  intros Hrun Hr Hr' Hne Hj.
  pose proof (run_inv _ _ _ (inv_fresh c) Hrun) as Hinv.
  assert (Hsame : ∀ line,
    {| lot := lot w; vehicles := <[r := v]> (vehicles w);
       console := console w ++ [line] |} = logged line w).
  { intros line. unfold logged. by rewrite list_insert_id. }
  unfold invoke. rewrite Hr.
  destruct (yield_spot_cases _ j (inv_wf _ Hinv : lot_wf (parking_lot
    {| self := v; parking_lot := lot w; stdout := console w |})))
    as [(_ & ->)|[(_ & _ & ->)|[(s & _ & _ & _ & ->)|(_ & Hs & _)]]];
    simpl in *.
  - eexists. by rewrite Hsame.
  - eexists. by rewrite Hsame.
  - eexists. by rewrite Hsame.
  - exfalso. apply (inv_no_overlap _ Hinv r r' v v' Hne Hr Hr' j); [|done].
    unfold held_spots. rewrite Hs. apply footprint_start.
Qed.

Lemma yield_spot_of_another_refused_witness :
  run busy_calls (fresh 5) = Ok busy
  ∧ vehicles busy !! 1%nat = Some (car_at (Some 1))
  ∧ vehicles busy !! 2%nat = Some (truck_at (Some 2))
  ∧ 1%nat ≠ 2%nat
  ∧ 3 ∈ held_spots (truck_at (Some 2))
  ∧ ∃ line, invoke 1 (yield_spot 3) busy = Ok (false, logged line busy).
Proof.
  split; [by vm_compute|]. split; [reflexivity|]. split; [reflexivity|].
  split; [lia|].
  assert (Hin : 3 ∈ held_spots (truck_at (Some 2)))
    by apply list_elem_of_further, list_elem_of_here.
  split; [exact Hin|].
  apply (yield_spot_of_another_refused 5 busy_calls busy 1 2
           (car_at (Some 1)) (truck_at (Some 2)) 3);
    [by vm_compute|reflexivity|reflexivity|lia|exact Hin].
Defined.

(** X10. In every reachable state a parked vehicle can always leave:
    [yield_spot(spot_index)] returns [True] without raising or printing, the
    vehicle is unparked afterwards, the other vehicles are as before, the
    spots it stood on are free, every other spot is as before, and the free
    count of [get_availability] has grown by the size of the vehicle. *)
Theorem yield_own_spot_succeeds
    (c : Z) (calls : list Call) (w : World) (r : nat) (v : Vehicle) (i : Z) :
  run calls (fresh c) = Ok w →
  vehicles w !! r = Some v → spot_index v = Some i →
  ∃ w', invoke r (yield_spot i) w = Ok (true, w')
        ∧ vehicles w'
          = <[r := {| vehicle_type := vehicle_type v; spot_index := None |}]>
              (vehicles w)
        ∧ console w' = console w
        ∧ (∀ j, j ∈ held_spots v → getitem (spots (lot w')) j = Ok false)
        ∧ (∀ j, 0 ≤ j → j ∉ held_spots v →
                getitem (spots (lot w')) j = getitem (spots (lot w)) j)
        ∧ Avail.free (get_availability (lot w'))
          = Avail.free (get_availability (lot w)) + spots_needed (vehicle_type v).
Proof.
  intros Hrun Hr Hs.
  pose proof (run_inv _ _ _ (inv_fresh c) Hrun) as Hinv.
  pose proof (inv_wf _ Hinv) as Hwf. unfold lot_wf in Hwf.
  assert (Hheld : held_spots v = footprint (vehicle_type v) i).
  { unfold held_spots. by rewrite Hs. }
  assert (Hown : ∀ j, j ∈ footprint (vehicle_type v) i →
            0 ≤ j ∧ spots (lot w) !! Z.to_nat j = Some true).
  { intros j Hj. apply (inv_owned _ Hinv r v j Hr). by rewrite Hheld. }
  assert (Hidx : 0 ≤ i < index_bound (vehicle_type v) (lot w)).
  { destruct (vehicle_type v); simpl in *.
    - destruct (Hown i) as [? Hocc%lookup_lt_Some]; [apply list_elem_of_here|].
      lia.
    - destruct (Hown i) as [? _]; [apply list_elem_of_here|].
      destruct (Hown (i + 1)) as [? Hocc%lookup_lt_Some];
        [apply list_elem_of_further, list_elem_of_here|]. lia. }
  unfold invoke. rewrite Hr.
  rewrite yield_spot_release by done. simpl.
  eexists. split; [reflexivity|]. simpl.
  split; [done|]. split; [done|]. rewrite Hheld. split; [|split].
  - intros j Hj. destruct (Hown j Hj) as [Hj0 Hocc%lookup_lt_Some].
    apply getitem_Ok; [done|]. by apply set_all_lookup_in.
  - intros j Hj0 Hout. rewrite !getitem_nonneg by done.
    rewrite set_all_lookup_other; [done|].
    intros j' Hj' Heq. destruct (Hown j' Hj') as [Hj'0 _].
    apply Hout. by replace j with j' by lia.
  - rewrite sum_set_all_footprint; [simpl; lia|lia|].
    intros j Hj. by apply Hown.
Qed.

Lemma yield_own_spot_succeeds_witness :
  run busy_calls (fresh 5) = Ok busy
  ∧ vehicles busy !! 2%nat = Some (truck_at (Some 2))
  ∧ spot_index (truck_at (Some 2)) = Some 2
  ∧ ∃ w', invoke 2 (yield_spot 2) busy = Ok (true, w')
          ∧ vehicles w'
            = <[2%nat := {| vehicle_type := vehicle_type (truck_at (Some 2));
                            spot_index := None |}]> (vehicles busy)
          ∧ console w' = console busy
          ∧ (∀ j, j ∈ held_spots (truck_at (Some 2)) →
                  getitem (spots (lot w')) j = Ok false)
          ∧ (∀ j, 0 ≤ j → j ∉ held_spots (truck_at (Some 2)) →
                  getitem (spots (lot w')) j = getitem (spots (lot busy)) j)
          ∧ Avail.free (get_availability (lot w'))
            = Avail.free (get_availability (lot busy))
              + spots_needed (vehicle_type (truck_at (Some 2))).
Proof.
  split; [by vm_compute|]. split; [reflexivity|]. split; [reflexivity|].
  apply (yield_own_spot_succeeds 5 busy_calls busy 2 (truck_at (Some 2)) 2);
    [by vm_compute|reflexivity|reflexivity].
Defined.

(** X11. No spot leaks: in a reachable state in which no vehicle is parked, every
    spot of the lot is free again and [get_availability] reports 0 occupied. *)
Theorem all_unparked_lot_empty (c : Z) (calls : list Call) (w : World) :
  run calls (fresh c) = Ok w →
  (∀ r v, vehicles w !! r = Some v → spot_index v = None) →
  Avail.occupied (get_availability (lot w)) = 0
  ∧ Avail.free (get_availability (lot w)) = c
  ∧ ∀ j, 0 ≤ j < c → getitem (spots (lot w)) j = Ok false.
Proof.
  intros Hrun Hall.
  pose proof (run_inv _ _ _ (inv_fresh c) Hrun) as Hinv.
  pose proof (run_capacity _ _ _ (inv_fresh c) Hrun) as Hc. simpl in Hc.
  pose proof (inv_wf _ Hinv) as Hwf. unfold lot_wf in Hwf.
  assert (Hsum : sum (spots (lot w)) = 0).
  { rewrite (inv_conservation _ Hinv). by apply total_held_unparked. }
  simpl. rewrite Hsum, Hc. split; [done|]. split; [lia|].
  intros j Hj. apply getitem_Ok; [lia|].
  apply sum_zero_all_free; [done|lia].
Qed.

Lemma all_unparked_lot_empty_witness :
  run [create_car_call; create_truck_call; request_spot_call 0;
       request_spot_call 1; yield_spot_call 1 1; yield_spot_call 0 0] (fresh 3)
  = Ok {| lot := ParkingLot_init 3;
          vehicles := [car_at None; truck_at None];
          console := [] |}
  ∧ Avail.occupied (get_availability (ParkingLot_init 3)) = 0
  ∧ Avail.free (get_availability (ParkingLot_init 3)) = 3
  ∧ ∀ j, 0 ≤ j < 3 → getitem (spots (ParkingLot_init 3)) j = Ok false.
Proof.
  split; [by vm_compute|].
  apply (all_unparked_lot_empty 3
           [create_car_call; create_truck_call; request_spot_call 0;
            request_spot_call 1; yield_spot_call 1 1; yield_spot_call 0 0]
           {| lot := ParkingLot_init 3;
              vehicles := [car_at None; truck_at None];
              console := [] |}).
  - by vm_compute.
  - intros [|[|r]] v Hv; simpl in Hv; by simplify_eq.
Defined.

(** X12. A call that fails changes nothing but the console: in every reachable
    state, a [request_spot] that returns [None] and a [yield_spot] that
    returns [False] leave the lot and every vehicle as they were, and print
    at most one line. *)
Theorem failed_call_changes_nothing
    (c : Z) (calls : list Call) (w w' : World) (r : nat) (idx : Z) :
  run calls (fresh c) = Ok w →
  (invoke r request_spot w = Ok (None, w')
   ∨ invoke r (yield_spot idx) w = Ok (false, w')) →
  lot w' = lot w ∧ vehicles w' = vehicles w
  ∧ (console w' = console w ∨ ∃ line, console w' = console w ++ [line]).
Proof.
  intros Hrun Hcall.
  pose proof (run_inv _ _ _ (inv_fresh c) Hrun) as Hinv.
  destruct Hcall as [Hcall|Hcall];
    apply invoke_Ok in Hcall as (v & f & Hr & Hcall & ->); simpl.
  - destruct (request_spot_cases _ (inv_wf _ Hinv : lot_wf (parking_lot
      {| self := v; parking_lot := lot w; stdout := console w |})))
      as [(s & _ & Heq)|[(_ & _ & Heq)|(i & _ & _ & Heq)]];
      rewrite Heq in Hcall; [| |done]; injection Hcall as <-; simpl;
      (split; [done|]); (split; [by apply list_insert_id|]); eauto.
  - destruct (yield_spot_cases _ idx (inv_wf _ Hinv : lot_wf (parking_lot
      {| self := v; parking_lot := lot w; stdout := console w |})))
      as [(_ & Heq)|[(_ & _ & Heq)|[(s & _ & _ & _ & Heq)|(_ & _ & Heq)]]];
      rewrite Heq in Hcall; [| | |done]; injection Hcall as <-; simpl;
      (split; [done|]); (split; [by apply list_insert_id|]); eauto.
Qed.

Lemma failed_call_changes_nothing_witness :
  run full_calls (fresh 2) = Ok full
  ∧ invoke 2 request_spot full = Ok (None, full)
  ∧ lot full = lot full ∧ vehicles full = vehicles full
  ∧ (console full = console full ∨ ∃ line, console full = console full ++ [line]).
Proof.
  split; [by vm_compute|]. split; [reflexivity|].
  apply (failed_call_changes_nothing 2 full_calls full full 2 0);
    [by vm_compute|left; reflexivity].
Defined.

(** X13. A lot built with capacity 0 or a negative capacity has no spot: in every
    state reached from it, every [request_spot], of a car or of a truck,
    returns [None] without raising or changing anything, and
    [get_availability] reports the capacity given, 0 occupied, the (negative)
    capacity as free count and an empty list of spots. *)
Theorem no_spot_without_capacity
    (c : Z) (calls : list Call) (w : World) (r : nat) (v : Vehicle) :
  c ≤ 0 →
  run calls (fresh c) = Ok w →
  vehicles w !! r = Some v →
  invoke r request_spot w = Ok (None, w)
  ∧ get_availability (lot w)
    = {| Avail.total := c; Avail.occupied := 0; Avail.free := c;
         Avail.spots := [] |}.
Proof.
  intros Hc Hrun Hr.
  pose proof (run_inv _ _ _ (inv_fresh c) Hrun) as Hinv.
  pose proof (run_capacity _ _ _ (inv_fresh c) Hrun) as Hcap. simpl in Hcap.
  pose proof (inv_wf _ Hinv) as Hwf. unfold lot_wf in Hwf.
  assert (Hnil : spots (lot w) = []).
  { apply length_zero_iff_nil. lia. }
  assert (Hs : spot_index v = None).
  { destruct (spot_index v) as [i|] eqn:Hs; [exfalso|done].
    destruct (inv_owned _ Hinv r v i Hr) as [_ Hocc].
    - unfold held_spots. rewrite Hs. apply footprint_start.
    - rewrite Hnil in Hocc. by rewrite lookup_nil in Hocc. }
  split.
  - unfold invoke. rewrite Hr. rewrite request_spot_full; simpl.
    + rewrite list_insert_id by done. by destruct w.
    + done.
    + destruct (vehicle_type v); simpl;
        unfold _find_single_spot, _find_adjacent_spots, range;
        by rewrite seqZ_nil by lia.
  - unfold get_availability. rewrite Hnil, Hcap. simpl. f_equal. lia.
Qed.

Lemma no_spot_without_capacity_witness :
  -2 ≤ 0
  ∧ run [create_car_call; create_truck_call; request_spot_call 1] (fresh (-2))
    = Ok {| lot := ParkingLot_init (-2);
            vehicles := [car_at None; truck_at None];
            console := [] |}
  ∧ invoke 0 request_spot
      {| lot := ParkingLot_init (-2);
         vehicles := [car_at None; truck_at None];
         console := [] |}
    = Ok (None, {| lot := ParkingLot_init (-2);
                   vehicles := [car_at None; truck_at None];
                   console := [] |})
  ∧ get_availability (ParkingLot_init (-2))
    = {| Avail.total := -2; Avail.occupied := 0; Avail.free := -2;
         Avail.spots := [] |}.
Proof.
  split; [lia|]. split; [by vm_compute|].
  apply (no_spot_without_capacity (-2)
           [create_car_call; create_truck_call; request_spot_call 1]
           {| lot := ParkingLot_init (-2);
              vehicles := [car_at None; truck_at None];
              console := [] |} 0 (car_at None));
    [lia|by vm_compute|reflexivity].
Defined.

(** ** Arrivals without departures: first fit packs the lot from the left *)

Lemma footprint_range t i j : j ∈ footprint t i ↔ i ≤ j < i + spots_needed t.
Proof.
  destruct t; simpl.
  - rewrite list_elem_of_singleton. lia.
  - rewrite elem_of_cons, list_elem_of_singleton. lia.
Qed.

Lemma filled_to_fresh c : filled_to 0 (lot (fresh c)).
Proof.
  split; [lia|]. split; [apply (inv_wf _ (inv_fresh c))|]. split.
  - intros j Hj. lia.
  - simpl. intros j Hj. apply lookup_replicate_2. lia.
Qed.

Lemma arrive_filled t w k :
  filled_to k (lot w) →
  let c := capacity (lot w) in
  let fits := bool_decide (k + spots_needed t ≤ c) in
  ∃ w', arrive t w = Ok (if fits then Some k else None, w')
        ∧ capacity (lot w') = c
        ∧ filled_to (if fits then k + spots_needed t else k) (lot w').
Proof.
  intros (Hk & Hwf & Htrue & Hfalse) c fits.
  subst c fits. set (c := capacity (lot w)) in *.
  pose proof Hwf as Hlen. unfold lot_wf in Hlen.
  assert (Hc : c = capacity (lot w)) by done. clearbody c.
  assert (Hneed : 1 ≤ spots_needed t ≤ 2) by (destruct t; simpl; lia).
  unfold arrive, create, invoke. simpl.
  rewrite list_lookup_middle by done.
  set (f := {| self := Vehicle_init t; parking_lot := lot w;
               stdout := console w |}).
  destruct (find_for_total t (lot w) Hwf) as [r Hr].
  assert (Hafter : ∀ j, r = Some j → j = k ∧ k + spots_needed t ≤ c).
  { intros j ->. pose proof (find_for_sound _ _ _ Hr) as [Hj Hfree].
    assert (k ≤ j).
    { destruct (decide (k ≤ j)); [done|exfalso].
      assert (getitem (spots (lot w)) j = Ok false) as Hj0
        by apply Hfree, footprint_start.
      apply getitem_Ok in Hj0; [|lia]. rewrite Htrue in Hj0 by lia. done. }
    assert (j + spots_needed t ≤ c) by (destruct t; simpl in *; lia).
    split; [|lia].
    destruct (decide (j ≤ k)); [lia|exfalso].
    assert (Hkb : 0 ≤ k < index_bound t (lot w))
      by (destruct t; simpl in *; lia).
    destruct (find_for_least t (lot w) _ k Hr Hkb) as (j' & [= <-] & ? & _);
      [|lia].
    intros j' Hj'%footprint_range. apply getitem_Ok; [lia|].
    apply Hfalse. destruct t; simpl in *; lia. }
  case_bool_decide as Hfit.
  - assert (Hkb : 0 ≤ k < index_bound t (lot w))
      by (destruct t; simpl in *; lia).
    destruct (find_for_least t (lot w) r k Hr Hkb) as (j & -> & _ & _).
    { intros j' Hj'%footprint_range. apply getitem_Ok; [lia|].
      apply Hfalse. lia. }
    destruct (Hafter j eq_refl) as [-> _].
    rewrite (request_spot_commit f k eq_refl Hr). simpl.
    eexists. split; [reflexivity|]. simpl. split; [done|].
    split; [simpl; lia|]. split; [|split]; simpl.
    + unfold lot_wf. simpl. by rewrite set_all_length.
    + intros j Hj. destruct (decide (j ∈ footprint t k)) as [Hin|Hout].
      * apply set_all_lookup_in; [done|]. lia.
      * rewrite set_all_lookup_other.
        -- apply Htrue. rewrite footprint_range in Hout. lia.
        -- intros j' Hj' Heq. rewrite footprint_range in Hj', Hout. lia.
    + intros j Hj. rewrite set_all_lookup_other.
      * apply Hfalse. destruct t; simpl in *; lia.
      * intros j' Hj'%footprint_range Heq. lia.
  - destruct r as [j|].
    { destruct (Hafter j eq_refl). lia. }
    rewrite (request_spot_full f eq_refl Hr). simpl.
    eexists. split; [reflexivity|]. simpl. split; [done|].
    subst c. split; [done|]. split; [done|]. split; done.
Qed.

Lemma arrivals_filled ts w k :
  filled_to k (lot w) →
  let c := capacity (lot w) in
  ∃ w', arrivals ts w = Ok (packing c k ts, w')
        ∧ capacity (lot w') = c
        ∧ filled_to (level c k ts) (lot w').
Proof.
  revert w k. induction ts as [|t ts IH]; intros w k Hfilled c; simpl.
  - by exists w.
  - destruct (arrive_filled t w k Hfilled) as (w1 & -> & Hc1 & Hfilled1).
    fold c in Hc1, Hfilled1 |- *.
    destruct (IH w1 _ Hfilled1) as (w2 & Hrun & Hc2 & Hfilled2).
    rewrite Hc1 in Hrun, Hc2, Hfilled2. rewrite Hrun.
    exists w2. case_bool_decide; by split.
Qed.

Lemma filled_to_occupied k l : filled_to k l → sum (spots l) = k.
Proof.
  intros (Hk & Hwf & Htrue & Hfalse). unfold lot_wf in Hwf.
  apply sum_filled; [lia|done|].
  intros j Hj. apply Hfalse. lia.
Qed.

Lemma packing_fits c k ts :
  k + demand ts ≤ c →
  Forall is_Some (packing c k ts) ∧ level c k ts = k + demand ts.
Proof.
  revert k. induction ts as [|t ts IH]; intros k Hfit; simpl in *.
  - split; [constructor|lia].
  - assert (0 ≤ demand ts).
    { clear. induction ts as [|[] ts IH]; simpl; lia. }
    rewrite bool_decide_eq_true_2 by lia.
    destruct (IH (k + spots_needed t)) as [Hall Hlevel]; [lia|].
    split; [by constructor|lia].
Qed.

Lemma packing_length c k ts : length (packing c k ts) = length ts.
Proof.
  revert k. induction ts as [|t ts IH]; intros k; simpl; [done|].
  case_bool_decide; simpl; by rewrite IH.
Qed.

Lemma packing_cars c k (n i : nat) :
  (i < n)%nat →
  packing c k (replicate n CAR) !! i
  = Some (if bool_decide (k + Z.of_nat i < c) then Some (k + Z.of_nat i) else None).
Proof.
  revert k i. induction n as [|n IH]; intros k i Hi; [lia|]. simpl.
  case_bool_decide as Hfit.
  - destruct i as [|i]; simpl.
    + rewrite bool_decide_eq_true_2 by lia. do 2 f_equal. lia.
    + rewrite IH by lia.
      destruct (decide (k + 1 + Z.of_nat i < c)).
      * rewrite !bool_decide_eq_true_2 by lia. do 2 f_equal. lia.
      * by rewrite !bool_decide_eq_false_2 by lia.
  - destruct i as [|i]; simpl.
    + by rewrite bool_decide_eq_false_2 by lia.
    + rewrite IH by lia. by rewrite !bool_decide_eq_false_2 by lia.
Qed.

(** X14. When vehicles only arrive (each one is created and asks for a spot once,
    as in [park_cars], [park_trucks] and the full-lot demonstration), in any
    order and on a fresh lot of any capacity, no call raises, the spots
    returned are those of [packing]: the lot fills from index 0 without gaps,
    a vehicle that fits after the filled part gets its first index, a vehicle
    that does not fit gets [None]; and the spots occupied at the end are
    exactly those below [level]. *)
Theorem arrivals_pack_from_left (c : Z) (ts : list VehicleType) :
  ∃ w, arrivals ts (fresh c) = Ok (packing c 0 ts, w)
       ∧ Avail.occupied (get_availability (lot w)) = level c 0 ts
       ∧ ∀ j, 0 ≤ j < c →
           getitem (spots (lot w)) j = Ok (bool_decide (j < level c 0 ts)).
Proof.
  destruct (arrivals_filled ts (fresh c) 0 (filled_to_fresh c))
    as (w & Hrun & Hc & Hfilled). simpl in Hrun, Hc, Hfilled.
  exists w. split; [done|]. split; [by apply filled_to_occupied|].
  destruct Hfilled as (Hk & Hwf & Htrue & Hfalse). rewrite Hc in Hfalse.
  intros j Hj. apply getitem_Ok; [lia|]. case_bool_decide.
  - apply Htrue. lia.
  - apply Hfalse. lia.
Qed.

(** X15. If the vehicles that arrive ask for no more spots than the lot has, then
    whatever their order every one of them is served: packing from the left
    leaves no gap, so first fit refuses nobody; at the end the occupied count
    is the total demand. *)
Theorem arrivals_all_served (c : Z) (ts : list VehicleType) :
  demand ts ≤ c →
  ∃ outs w, arrivals ts (fresh c) = Ok (outs, w)
            ∧ length outs = length ts
            ∧ Forall is_Some outs
            ∧ Avail.occupied (get_availability (lot w)) = demand ts
            ∧ Avail.free (get_availability (lot w)) = c - demand ts.
Proof.
  intros Hfit.
  destruct (arrivals_filled ts (fresh c) 0 (filled_to_fresh c))
    as (w & Hrun & Hc & Hfilled). simpl in Hrun, Hc, Hfilled.
  destruct (packing_fits c 0 ts) as [Hall Hlevel]; [lia|].
  exists (packing c 0 ts), w. split; [done|].
  split; [apply packing_length|]. split; [done|].
  simpl. rewrite (filled_to_occupied _ _ Hfilled), Hc. lia.
Qed.

Lemma arrivals_all_served_witness :
  demand thread_schedule ≤ 20
  ∧ ∃ outs w, arrivals thread_schedule (fresh 20) = Ok (outs, w)
              ∧ length outs = length thread_schedule
              ∧ Forall is_Some outs
              ∧ Avail.occupied (get_availability (lot w)) = demand thread_schedule
              ∧ Avail.free (get_availability (lot w)) = 20 - demand thread_schedule.
Proof.
  split; [by vm_compute|].
  apply (arrivals_all_served 20 thread_schedule). by vm_compute.
Defined.

(** X16. [n] cars arriving one after the other on a fresh lot of capacity [c]:
    the car number [i] (from 0) gets spot [i] when [i < c] and [None]
    otherwise, so exactly the first [c] cars are served. *)
Theorem cars_fill_in_order (c : Z) (n i : nat) :
  (i < n)%nat →
  ∃ outs w, arrivals (replicate n CAR) (fresh c) = Ok (outs, w)
            ∧ outs !! i
              = Some (if bool_decide (Z.of_nat i < c) then Some (Z.of_nat i)
                      else None).
Proof.
  intros Hi.
  destruct (arrivals_filled (replicate n CAR) (fresh c) 0 (filled_to_fresh c))
    as (w & Hrun & _). simpl in Hrun.
  exists (packing c 0 (replicate n CAR)), w. split; [done|].
  by rewrite packing_cars.
Qed.

Lemma cars_fill_in_order_witness :
  (3 < 5)%nat
  ∧ ∃ outs w, arrivals (replicate 5 CAR) (fresh 3) = Ok (outs, w)
              ∧ outs !! 3%nat
                = Some (if bool_decide (Z.of_nat 3 < 3) then Some (Z.of_nat 3)
                        else None).
Proof.
  split; [lia|]. apply (cars_fill_in_order 3 5 3). lia.
Defined.

(** ** [__repr__] *)

Lemma string_length_app (s t : string) :
  String.length (s +:+ t) = (String.length s + String.length t)%nat.
Proof.
  induction s as [|a s IH]; [done|].
  change (S (String.length (s +:+ t)) = S (String.length s + String.length t)).
  by rewrite IH.
Qed.

Lemma string_app_inj_r (s1 s2 t : string) : s1 +:+ t = s2 +:+ t → s1 = s2.
Proof.
  revert s2. induction s1 as [|a s1 IH]; intros [|b s2] Heq.
  - done.
  - apply (f_equal String.length) in Heq.
    rewrite !string_length_app in Heq. simpl in Heq. lia.
  - apply (f_equal String.length) in Heq.
    rewrite !string_length_app in Heq. simpl in Heq. lia.
  - change (String a (s1 +:+ t) = String b (s2 +:+ t)) in Heq.
    injection Heq as -> Heq. f_equal. by apply IH.
Qed.

(** X17. The text [__repr__] builds tells everything about the vehicle: two
    vehicles with the same text have the same kind and the same
    [spot_index] (parked or not, and where). *)
Theorem Vehicle_repr_inj (v v' : Vehicle) :
  Vehicle_repr v = Vehicle_repr v' → v = v'.
Proof.
  destruct v as [t s], v' as [t' s']. unfold Vehicle_repr. simpl.
  destruct t, t'; simpl; try discriminate;
    destruct s as [i|], s' as [j|]; simpl; try discriminate; try done;
    intros Heq;
    do 2 apply String.app_inj in Heq;
    apply string_app_inj_r, String.app_inj in Heq;
    apply (inj pretty) in Heq; by subst.
Qed.

Lemma Vehicle_repr_inj_witness :
  Vehicle_repr (truck_at (Some 12)) = "TRUCK(parked at 12)"
  ∧ Vehicle_repr (truck_at (Some 12)) = Vehicle_repr (truck_at (Some (10 + 2)))
  ∧ truck_at (Some 12) = truck_at (Some (10 + 2)).
Proof.
  split; [reflexivity|]. split; [reflexivity|].
  apply (Vehicle_repr_inj (truck_at (Some 12)) (truck_at (Some (10 + 2)))).
  reflexivity.
Defined.

(** ** A vehicle is refused only when there is no place for it *)

(** X18. On a lot with one entry per spot, an unparked vehicle that calls
    [request_spot] is served exactly when some valid start [i] for its kind
    has all its spots free ([i] for a car, [i] and [i+1] for a truck), and the
    index returned is then the least such start. *)
Theorem request_served_iff_placement (f : Frame) :
  lot_wf (parking_lot f) →
  spot_index (self f) = None →
  let t := vehicle_type (self f) in
  let l := parking_lot f in
  let free_at i :=
    0 ≤ i < index_bound t l
    ∧ ∀ j, j ∈ footprint t i → getitem (spots l) j = Ok false in
  ((∃ i f', request_spot f = Ok (Some i, f')) ↔ ∃ i, free_at i)
  ∧ ∀ i f', request_spot f = Ok (Some i, f') →
            free_at i ∧ ∀ i', free_at i' → i ≤ i'.
Proof.
  intros Hwf Hs t l free_at.
  assert (Hserved : ∀ i f', request_spot f = Ok (Some i, f') →
            find_for t l = Ok (Some i)).
  { intros i f' Hreq.
    destruct (request_spot_cases f Hwf)
      as [(s & _ & Heq)|[(_ & _ & Heq)|(idx & _ & Hfind & Heq)]];
      rewrite Heq in Hreq; [done|done|].
    by injection Hreq as ->. }
  split; [split|].
  - intros (i & f' & Hreq). exists i.
    by apply (find_for_sound t l (Some i)), Hserved with f'.
  - intros (i & Hi & Hfree).
    destruct (find_for_total t l Hwf) as [r Hr].
    destruct (find_for_least t l r i Hr Hi Hfree) as (j & -> & _).
    exists j. eexists. by apply request_spot_commit.
  - intros i f' Hreq. pose proof (Hserved i f' Hreq) as Hfind.
    split; [by apply (find_for_sound t l (Some i))|].
    intros i' (Hi' & Hfree').
    destruct (find_for_least t l _ i' Hfind Hi' Hfree') as (j & [= <-] & ? & _).
    lia.
Qed.

Lemma request_served_iff_placement_witness :
  lot_wf (parking_lot new_truck)
  ∧ spot_index (self new_truck) = None
  ∧ ((∃ i f', request_spot new_truck = Ok (Some i, f'))
     ↔ ∃ i, 0 ≤ i < index_bound TRUCK (parking_lot new_truck)
            ∧ ∀ j, j ∈ footprint TRUCK i →
                   getitem (spots (parking_lot new_truck)) j = Ok false).
Proof.
  split; [reflexivity|]. split; [reflexivity|].
  apply (request_served_iff_placement new_truck); reflexivity.
Defined.
